(** * Bandwidth allocation by fractional knapsack: a model of [code.c]

    The program reads a total bandwidth, a task count and that many
    tasks (name, demand, priority), computes the priority-per-demand
    ratio of each task, sorts the array with [qsort] under
    [compareTasks], and hands the pool out in array order.

    Modelling choices.
    - [double] is modelled by the exact rationals [Q]: the comparisons,
      [-], [/] and [*] of the source are the exact ones.  Rounding,
      infinities and NaN are outside the model.
    - [int] is modelled by [Z]; the program does no arithmetic on its
      [int] inputs apart from comparing them with 0 and converting them
      to [double], so no wrap-around arises.  [INT_MIN] and [INT_MAX]
      bound the well-formed inputs.
    - The array [tasks] is a list updated by index.
    - [qsort] belongs to the C library.  It is modelled by its contract:
      the result is a permutation of the array, ordered by the
      comparison function; the order of elements that compare equal is
      unspecified.  [qsort_stable] is one executable instance.
    - [malloc] succeeds or fails as the environment decides. *)

From Stdlib Require Import ZArith QArith Qabs Lqa Lia Bool.
From Stdlib Require Import Sorted Permutation.
From stdpp Require Import base list strings.

Local Open Scope Q_scope.

(** ** The task record (lines 36-42) *)

Record Task := mkTask {
  name : string;
  demand : Q;
  priority : Z;
  ratio : Q;
  allocated : Q
}.

Definition set_allocated (t : Task) (a : Q) : Task :=
  {| name := name t; demand := demand t; priority := priority t;
     ratio := ratio t; allocated := a |}.

(** Comparisons of [double] values, as booleans. *)
Definition Qltb (x y : Q) : bool := negb (Qle_bool y x).

(** ** [compareTasks] (lines 54-67) *)

Definition compareTasks (taskA taskB : Task) : Z :=
  if Qltb (ratio taskB) (ratio taskA) then (-1)%Z
  else if Qltb (ratio taskA) (ratio taskB) then 1%Z
  else 0%Z.

(** ** The ratio of a task as it is read (lines 120-127)

    The sentinel of line 126 is [1e9]; the condition of the conditional
    expression is [(double)priority > 0]. *)

Definition SENTINEL : Q := 1000000000.

Definition computeRatio (d : Q) (p : Z) : Q :=
  if Qltb 0 d then inject_Z p / d
  else if Qltb 0 (inject_Z p) then SENTINEL else 0.

(** ** Input of one run

    [scanf] and [fgets] are modelled by the values they deliver: the
    total bandwidth, the task count, and for each task its name, demand
    and priority.  [malloc_ok] tells whether line 95 obtains the array. *)

Record TaskInput := mkTaskInput {
  in_name : string;
  in_demand : Q;
  in_priority : Z
}.

Record Input := mkInput {
  in_totalBandwidth : Q;
  in_numTasks : Z;
  in_tasks : list TaskInput;
  malloc_ok : bool
}.

Definition INT_MIN : Z := (-2147483648)%Z.
Definition INT_MAX : Z := 2147483647%Z.

Definition is_int (z : Z) : Prop := (INT_MIN <= z <= INT_MAX)%Z.

(** A well-formed input supplies [numTasks] task descriptions whose
    names fit the 100-byte buffer, and [int] values in range. *)
Definition wf_input (inp : Input) : Prop :=
  is_int (in_numTasks inp) /\
  (0 < in_numTasks inp -> Z.of_nat (length (in_tasks inp)) = in_numTasks inp)%Z /\
  Forall (fun e => is_int (in_priority e) /\ (String.length (in_name e) < 99)%nat)
         (in_tasks inp).

(** Body of the reading loop (lines 103-131) for one task. *)
Definition read_task (e : TaskInput) : Task :=
  {| name := in_name e;
     demand := in_demand e;
     priority := in_priority e;
     ratio := computeRatio (in_demand e) (in_priority e);
     allocated := 0 |}.

(** ** [qsort] (line 135), by its contract *)

Definition qsort_post {A : Type} (compar : A -> A -> Z) (base result : list A) : Prop :=
  Permutation base result /\
  StronglySorted (fun a b => (compar a b <= 0)%Z) result.

(** One instance of the contract: insertion from the right, an element
    passing only those that must precede it. *)
Fixpoint qsort_insert {A : Type} (compar : A -> A -> Z) (x : A) (l : list A) : list A :=
  match l with
  | [] => [x]
  | y :: l' =>
      if (compar x y <=? 0)%Z then x :: y :: l'
      else y :: qsort_insert compar x l'
  end.

Fixpoint qsort_stable {A : Type} (compar : A -> A -> Z) (l : list A) : list A :=
  match l with
  | [] => []
  | x :: l' => qsort_insert compar x (qsort_stable compar l')
  end.

(** The ranking step of [main]. *)
Definition Ranked (base result : list Task) : Prop :=
  qsort_post compareTasks base result.

(** ** The allocation loop (lines 139-165)

    [idx] is the loop variable [i]; [numTasks] is the length of [tasks]. *)

Record LoopState := mkLoopState {
  idx : nat;
  tasks : list Task;
  totalBandwidth : Q;
  totalPriorityValue : Q
}.

(** One iteration; [None] when the loop is left, by [i < numTasks]
    failing or by the [break] of line 142. *)
Definition loop_body (s : LoopState) : option LoopState :=
  match tasks s !! idx s with
  | None => None
  | Some t =>
      if Qle_bool (totalBandwidth s) 0 then None
      else if Qle_bool (demand t) (totalBandwidth s) then
        Some {| idx := S (idx s);
                tasks := <[idx s := set_allocated t (demand t)]> (tasks s);
                totalBandwidth := totalBandwidth s - demand t;
                totalPriorityValue := totalPriorityValue s + inject_Z (priority t) |}
      else
        let t' := set_allocated t (totalBandwidth s) in
        let fraction := allocated t' / demand t' in
        Some {| idx := S (idx s);
                tasks := <[idx s := t']> (tasks s);
                totalBandwidth := 0;
                totalPriorityValue :=
                  totalPriorityValue s + fraction * inject_Z (priority t') |}
  end.

(** The states at the head of the loop, the first one included. *)
Fixpoint loop_trace (fuel : nat) (s : LoopState) : list LoopState :=
  s :: match fuel with
       | O => []
       | S fuel' =>
           match loop_body s with
           | None => []
           | Some s' => loop_trace fuel' s'
           end
       end.

(** The state in which the loop is left. *)
Fixpoint loop_exec (fuel : nat) (s : LoopState) : LoopState :=
  match fuel with
  | O => s
  | S fuel' =>
      match loop_body s with
      | None => s
      | Some s' => loop_exec fuel' s'
      end
  end.

Definition loop_init (ranked : list Task) (bandwidth : Q) : LoopState :=
  {| idx := 0; tasks := ranked; totalBandwidth := bandwidth;
     totalPriorityValue := 0 |}.

(** The whole loop: [numTasks] iterations are enough fuel. *)
Definition allocate_trace (ranked : list Task) (bandwidth : Q) : list LoopState :=
  loop_trace (length ranked) (loop_init ranked bandwidth).

Definition allocate (ranked : list Task) (bandwidth : Q) : LoopState :=
  loop_exec (length ranked) (loop_init ranked bandwidth).

(** ** The report (lines 167-192) *)

Record Summary := mkSummary {
  total_bandwidth : Q;
  bandwidth_used : Q;
  total_priority_value : Q
}.

Record Row := mkRow {
  row_name : string;
  row_priority : Z;
  row_demand : Q;
  row_allocated : Q;
  percentageShare : Q
}.

Definition table_row (initialBandwidth : Q) (t : Task) : Row :=
  {| row_name := name t;
     row_priority := priority t;
     row_demand := demand t;
     row_allocated := allocated t;
     percentageShare :=
       if Qltb 0 initialBandwidth
       then (allocated t / initialBandwidth) * 100
       else 0 |}.

(** ** [main] (lines 72-199) *)

Record Outcome := mkOutcome {
  exit_status : Z;
  final : LoopState;
  trace : list LoopState;
  summary : option Summary;
  table : list Row
}.

(** What [main] leaves behind when it returns before the array exists. *)
Definition early_exit (status : Z) (inp : Input) : Outcome :=
  {| exit_status := status;
     final := loop_init [] (in_totalBandwidth inp);
     trace := [];
     summary := None;
     table := [] |}.

(** What [main] leaves behind once [qsort] has produced [ranked]. *)
Definition finish (inp : Input) (ranked : list Task) : Outcome :=
  let initialBandwidth := in_totalBandwidth inp in
  let s := allocate ranked initialBandwidth in
  {| exit_status := 0;
     final := s;
     trace := allocate_trace ranked initialBandwidth;
     summary := Some {| total_bandwidth := initialBandwidth;
                        bandwidth_used := initialBandwidth - totalBandwidth s;
                        total_priority_value := totalPriorityValue s |};
     table := map (table_row initialBandwidth) (tasks s) |}.

Inductive main : Input -> Outcome -> Prop :=
| main_no_tasks inp :
    (in_numTasks inp <= 0)%Z ->
    main inp (early_exit 0 inp)
| main_malloc_failed inp :
    (0 < in_numTasks inp)%Z ->
    malloc_ok inp = false ->
    main inp (early_exit 1 inp)
| main_allocated inp ranked :
    (0 < in_numTasks inp)%Z ->
    malloc_ok inp = true ->
    Z.of_nat (length (in_tasks inp)) = in_numTasks inp ->
    Ranked (map read_task (in_tasks inp)) ranked ->
    main inp (finish inp ranked).

(** A run of [main] with [qsort_stable] standing for [qsort]. *)
Definition main_stable (inp : Input) : Outcome :=
  if (in_numTasks inp <=? 0)%Z then early_exit 0 inp
  else if negb (malloc_ok inp) then early_exit 1 inp
  else finish inp (qsort_stable compareTasks (map read_task (in_tasks inp))).

(** ** The loop as a recursion over the part of the array still ahead

    [serve ahead b v] is what the loop makes of the entries from [i] on,
    with [b] in the pool and [v] credited so far: the entries as they
    are left, the pool and the credited value.  [loop_exec_serve] below
    shows that the loop computes it. *)

Fixpoint serve (ahead : list Task) (b v : Q) : list Task * Q * Q :=
  match ahead with
  | [] => ([], b, v)
  | t :: rest =>
      if Qle_bool b 0 then (ahead, b, v)
      else if Qle_bool (demand t) b then
        let '(rest', b', v') := serve rest (b - demand t) (v + inject_Z (priority t)) in
        (set_allocated t (demand t) :: rest', b', v')
      else
        let t' := set_allocated t b in
        (t' :: rest, 0, v + (allocated t' / demand t') * inject_Z (priority t'))
  end.

(** ** Quantities the properties speak of *)

Definition Qsum (l : list Q) : Q := foldr Qplus 0 l.

Definition sum_allocated (ts : list Task) : Q := Qsum (map allocated ts).
Definition sum_demand (ts : list Task) : Q := Qsum (map demand ts).

(** The fields the allocation pass is not to touch. *)
Definition same_content (t t' : Task) : Prop :=
  name t' = name t /\ demand t' = demand t /\
  priority t' = priority t /\ ratio t' = ratio t.

(** The ratio field holds what line 120-127 computed from the other fields. *)
Definition ratio_ok (t : Task) : Prop :=
  ratio t = computeRatio (demand t) (priority t).

(** A fractional allocation [x] for the entries [ts]: within the demand
    of each entry, and within the capacity in total. *)
Definition feasible (ts : list Task) (x : list Q) (capacity : Q) : Prop :=
  Forall2 (fun t a => 0 <= a <= demand t) ts x /\ Qsum x <= capacity.

(** Value of giving [a] to [t] by the rule of lines 148-160: the whole
    priority when the demand is met, the fraction of it otherwise. *)
Definition credit (t : Task) (a : Q) : Q :=
  if Qle_bool (demand t) a then inject_Z (priority t)
  else (a / demand t) * inject_Z (priority t).

Definition allocation_value (ts : list Task) (x : list Q) : Q :=
  Qsum (zip_with credit ts x).

(** The same, counted over the entries that demand something. *)
Definition credit_pos (t : Task) (a : Q) : Q :=
  if Qltb 0 (demand t) then (a / demand t) * inject_Z (priority t) else 0.

Definition allocation_value_pos (ts : list Task) (x : list Q) : Q :=
  Qsum (zip_with credit_pos ts x).

(** What the loop credits to the entries that demand nothing. *)
Fixpoint zero_demand_credit (ahead : list Task) (b : Q) : Q :=
  match ahead with
  | [] => 0
  | t :: rest =>
      if Qle_bool b 0 then 0
      else if Qle_bool (demand t) b then
        (if Qltb 0 (demand t) then 0 else inject_Z (priority t))
        + zero_demand_credit rest (b - demand t)
      else 0
  end.

(** The priorities of the entries that demand nothing. *)
Definition zero_demand_priority (ts : list Task) : Q :=
  Qsum (map (fun t => if Qltb 0 (demand t) then 0 else inject_Z (priority t)) ts).

(** Number of iterations executed by a run with trace [tr]. *)
Definition iterations (tr : list LoopState) : nat := Nat.pred (length tr).

(** Value credited by the iteration with [i = k] of a run with trace
    [tr]; nothing when that iteration was not executed. *)
Definition credited (tr : list LoopState) (k : nat) : Q :=
  match tr !! k, tr !! S k with
  | Some s, Some s' => totalPriorityValue s' - totalPriorityValue s
  | _, _ => 0
  end.

(** ** Orders of a ranked array *)

(** The ratios descend along the array. *)
Definition descending (l : list Task) : Prop :=
  forall i j a b, (i < j)%nat -> l !! i = Some a -> l !! j = Some b -> ratio b <= ratio a.

(** The entries of an array whose ratio is [r], in array order. *)
Definition tied_with (r : Q) (l : list Task) : list Task :=
  List.filter (fun t => Qeq_bool (ratio t) r) l.

(** A ranking is stable when entries of equal ratio are in the order
    they had before. *)
Definition stable_ranking (base result : list Task) : Prop :=
  forall r, tied_with r result = tied_with r base.

(** The ratios of two arrays agree index by index. *)
Definition same_ratios (l l' : list Task) : Prop :=
  Forall2 (fun a b => ratio a == ratio b) l l'.

(** ** Inputs used in the examples *)

(** The scenario of three tasks sharing 100 units. *)
Definition example_input : Input :=
  {| in_totalBandwidth := 100;
     in_numTasks := 3;
     in_tasks := [mkTaskInput "A" 60 60; mkTaskInput "B" 50 100; mkTaskInput "C" 30 30];
     malloc_ok := true |}.

(** A task count of zero. *)
Definition no_tasks_input : Input :=
  {| in_totalBandwidth := 100; in_numTasks := 0; in_tasks := []; malloc_ok := true |}.

(** Nothing to hand out, and one task that demands nothing. *)
Definition zero_capacity_input : Input :=
  {| in_totalBandwidth := 0;
     in_numTasks := 1;
     in_tasks := [mkTaskInput "Z" 0 5];
     malloc_ok := true |}.

(** A task that demands nothing next to one whose ratio exceeds [1e9]. *)
Definition sentinel_input : Input :=
  {| in_totalBandwidth := 1;
     in_numTasks := 2;
     in_tasks := [mkTaskInput "Z" 0 5; mkTaskInput "X" 1 2000000000];
     malloc_ok := true |}.

(** A negative total bandwidth. *)
Definition negative_capacity_input : Input :=
  {| in_totalBandwidth := -5;
     in_numTasks := 2;
     in_tasks := [mkTaskInput "A" 60 60; mkTaskInput "B" 50 100];
     malloc_ok := true |}.

(** Two tasks with the same ratio. *)
Definition tie_input : Input :=
  {| in_totalBandwidth := 100;
     in_numTasks := 2;
     in_tasks := [mkTaskInput "A" 60 60; mkTaskInput "C" 30 30];
     malloc_ok := true |}.

(** ** Further quantities of a run *)

(** The priorities of all entries together. *)
Definition sum_priority (ts : list Task) : Q :=
  Qsum (map (fun t => inject_Z (priority t)) ts).

(** The value the entries carry with what they hold in [allocated]:
    for each entry the fraction [allocated / demand] of its priority,
    as lines 159-160 compute it. *)
Definition fraction_value (ts : list Task) : Q :=
  Qsum (map (fun t => (allocated t / demand t) * inject_Z (priority t)) ts).

(** The last column of the table, added up. *)
Definition sum_share (rows : list Row) : Q := Qsum (map percentageShare rows).

(** What identifies an entry: as it is entered, and as the table shows it. *)
Definition input_entry (e : TaskInput) : string * Z * Q :=
  (in_name e, in_priority e, in_demand e).

Definition row_entry (r : Row) : string * Z * Q :=
  (row_name r, row_priority r, row_demand r).

(** An entry that got something, but not all it asked for. *)
Definition partially_served (t : Task) : Prop :=
  ~ allocated t == 0 /\ allocated t <> demand t.

(** * Lemmas *)

(** ** Comparisons *)

Lemma Qltb_true (x y : Q) : Qltb x y = true <-> x < y.
Proof.
  unfold Qltb. rewrite negb_true_iff, <- not_true_iff_false, Qle_bool_iff.
  split; [apply Qnot_le_lt | apply Qlt_not_le].
Qed.

Lemma Qltb_false (x y : Q) : Qltb x y = false <-> y <= x.
Proof.
  unfold Qltb. rewrite negb_false_iff. apply Qle_bool_iff.
Qed.

Lemma Qle_bool_false (x y : Q) : Qle_bool x y = false <-> y < x.
Proof.
  rewrite <- not_true_iff_false, Qle_bool_iff.
  split; [apply Qnot_le_lt | apply Qlt_not_le].
Qed.

Ltac case_Q :=
  repeat match goal with
  | |- context [Qle_bool ?x ?y] =>
      let E := fresh "E" in
      destruct (Qle_bool x y) eqn:E;
      [apply Qle_bool_iff in E | apply Qle_bool_false in E]
  | |- context [Qltb ?x ?y] =>
      let E := fresh "E" in
      destruct (Qltb x y) eqn:E;
      [apply Qltb_true in E | apply Qltb_false in E]
  end.

Lemma compareTasks_le (a b : Task) :
  (compareTasks a b <= 0)%Z <-> ratio b <= ratio a.
Proof.
  unfold compareTasks. case_Q; split; intros; try lia; lra.
Qed.

Lemma compareTasks_total (a b : Task) :
  (0 < compareTasks a b)%Z -> (compareTasks b a <= 0)%Z.
Proof.
  rewrite compareTasks_le. unfold compareTasks. case_Q; intros; try lia; lra.
Qed.

Lemma compareTasks_trans (a b c : Task) :
  (compareTasks a b <= 0)%Z -> (compareTasks b c <= 0)%Z ->
  (compareTasks a c <= 0)%Z.
Proof. rewrite !compareTasks_le. intros. lra. Qed.

(** ** [qsort_stable] meets the contract of [qsort] *)

Section QsortStable.
Context {A : Type} (compar : A -> A -> Z).
Hypothesis compar_total : forall x y, (0 < compar x y)%Z -> (compar y x <= 0)%Z.
Hypothesis compar_trans : forall x y z,
  (compar x y <= 0)%Z -> (compar y z <= 0)%Z -> (compar x z <= 0)%Z.

Lemma qsort_insert_perm (x : A) (l : list A) :
  Permutation (x :: l) (qsort_insert compar x l).
Proof.
  induction l as [|y l IH]; simpl; [reflexivity|].
  destruct (compar x y <=? 0)%Z; [reflexivity|].
  rewrite <- IH. apply perm_swap.
Qed.

Lemma qsort_stable_perm (l : list A) : Permutation l (qsort_stable compar l).
Proof.
  induction l as [|x l IH]; simpl; [reflexivity|].
  rewrite <- qsort_insert_perm. now constructor.
Qed.

Lemma qsort_insert_sorted (x : A) (l : list A) :
  StronglySorted (fun a b => (compar a b <= 0)%Z) l ->
  StronglySorted (fun a b => (compar a b <= 0)%Z) (qsort_insert compar x l).
Proof.
  induction 1 as [|y l Hl IH Hy]; simpl.
  - repeat constructor.
  - destruct (compar x y <=? 0)%Z eqn:E.
    + apply Z.leb_le in E. constructor; [now constructor|].
      constructor; [exact E|].
      eapply Forall_impl; [exact Hy|]. intros z Hz. now apply compar_trans with y.
    + apply Z.leb_gt in E. constructor; [exact IH|].
      rewrite <- qsort_insert_perm. constructor; [now apply compar_total | exact Hy].
Qed.

Lemma qsort_stable_post (l : list A) : qsort_post compar l (qsort_stable compar l).
Proof.
  split; [apply qsort_stable_perm|].
  induction l as [|x l IH]; simpl; [constructor | now apply qsort_insert_sorted].
Qed.
End QsortStable.

Lemma Ranked_stable (l : list Task) : Ranked l (qsort_stable compareTasks l).
Proof.
  apply qsort_stable_post; [apply compareTasks_total | apply compareTasks_trans].
Qed.

Lemma Ranked_exists (l : list Task) : exists ranked, Ranked l ranked.
Proof. eexists. apply Ranked_stable. Qed.

Lemma Ranked_length (l ranked : list Task) : Ranked l ranked -> length ranked = length l.
Proof. intros [Hp _]. symmetry. now apply Permutation_length. Qed.

(** In a ranked array the ratios descend. *)
Lemma Ranked_descending (l ranked : list Task) (i j : nat) (a b : Task) :
  Ranked l ranked -> (i < j)%nat ->
  ranked !! i = Some a -> ranked !! j = Some b -> ratio b <= ratio a.
Proof.
  intros [_ Hs]. revert i j. induction Hs as [|x r Hr IH Hx]; intros i j Hij Ha Hb.
  - discriminate.
  - destruct j as [|j]; [lia|]. destruct i as [|i]; simpl in *.
    + injection Ha as <-. apply compareTasks_le.
      rewrite Forall_forall in Hx. apply Hx. eapply list_elem_of_lookup_2, Hb.
    + apply (IH i j); [lia | assumption | assumption].
Qed.

(** ** The loop: termination, trace, and the recursion it computes *)

Lemma loop_body_idx (s s' : LoopState) : loop_body s = Some s' -> idx s' = S (idx s).
Proof.
  unfold loop_body. destruct (tasks s !! idx s); [|discriminate].
  destruct (Qle_bool (totalBandwidth s) 0); [discriminate|].
  destruct (Qle_bool _ _); intros [= <-]; reflexivity.
Qed.

Lemma loop_body_length (s s' : LoopState) :
  loop_body s = Some s' -> length (tasks s') = length (tasks s).
Proof.
  unfold loop_body. destruct (tasks s !! idx s); [|discriminate].
  destruct (Qle_bool (totalBandwidth s) 0); [discriminate|].
  destruct (Qle_bool _ _); intros [= <-]; simpl; apply length_insert.
Qed.

Lemma loop_body_in_range (s s' : LoopState) :
  loop_body s = Some s' -> (idx s < length (tasks s))%nat.
Proof.
  unfold loop_body. destruct (tasks s !! idx s) eqn:E; [|discriminate].
  intros _. eapply lookup_lt_Some, E.
Qed.

(** The loop is left after at most [numTasks - i] iterations. *)
Lemma loop_exec_halts (fuel : nat) (s : LoopState) :
  (length (tasks s) <= idx s + fuel)%nat ->
  loop_body (loop_exec fuel s) = None.
Proof.
  revert s. induction fuel as [|fuel IH]; intros s Hlen; simpl.
  - unfold loop_body. rewrite lookup_ge_None_2; [reflexivity | lia].
  - destruct (loop_body s) as [s'|] eqn:E; [|exact E].
    apply IH. rewrite (loop_body_idx _ _ E), (loop_body_length _ _ E). lia.
Qed.

Lemma allocate_halts (ranked : list Task) (bandwidth : Q) :
  loop_body (allocate ranked bandwidth) = None.
Proof. apply loop_exec_halts. simpl. lia. Qed.

Lemma loop_trace_step (fuel : nat) (s a b : LoopState) (k : nat) :
  loop_trace fuel s !! k = Some a -> loop_trace fuel s !! S k = Some b ->
  loop_body a = Some b.
Proof.
  revert s k. induction fuel as [|fuel IH]; intros s k Ha Hb.
  - destruct k; discriminate.
  - simpl in Ha, Hb. destruct (loop_body s) as [s'|] eqn:E; [|destruct k; discriminate].
    destruct k as [|k].
    + injection Ha as <-. destruct fuel; simpl in Hb; injection Hb as <-; exact E.
    + simpl in Ha. eapply IH; eassumption.
Qed.

Lemma loop_trace_extend (fuel : nat) (s a b : LoopState) (k : nat) :
  loop_trace fuel s !! k = Some a -> (k < fuel)%nat -> loop_body a = Some b ->
  loop_trace fuel s !! S k = Some b.
Proof.
  revert s k. induction fuel as [|fuel IH]; intros s k Ha Hk Hb; [lia|].
  simpl in Ha |- *. destruct k as [|k].
  - injection Ha as <-. rewrite Hb. destruct fuel; reflexivity.
  - destruct (loop_body s) as [s'|] eqn:E; [|destruct k; discriminate].
    simpl in Ha. apply (IH s' k); [assumption | lia | assumption].
Qed.

Lemma loop_trace_head (fuel : nat) (s : LoopState) : loop_trace fuel s !! 0%nat = Some s.
Proof. destruct fuel; reflexivity. Qed.

Lemma loop_trace_last (fuel : nat) (s : LoopState) :
  last (loop_trace fuel s) = Some (loop_exec fuel s).
Proof.
  revert s. induction fuel as [|fuel IH]; intros s; [reflexivity|].
  simpl. destruct (loop_body s) as [s'|]; [|reflexivity].
  rewrite <- IH. destruct fuel; simpl; [reflexivity|]. reflexivity.
Qed.

(** A property kept by every iteration holds all along the trace. *)
Lemma loop_trace_invariant (P : LoopState -> Prop) (fuel : nat) (s : LoopState) :
  (forall a b, P a -> loop_body a = Some b -> P b) ->
  P s -> Forall P (loop_trace fuel s).
Proof.
  intros Hstep. revert s. induction fuel as [|fuel IH]; intros s Hs; simpl.
  - repeat constructor. exact Hs.
  - constructor; [exact Hs|]. destruct (loop_body s) as [s'|] eqn:E; [|constructor].
    apply IH. eapply Hstep; eassumption.
Qed.

Lemma loop_exec_stuck (fuel : nat) (s : LoopState) :
  loop_body s = None -> loop_exec fuel s = s.
Proof. intros E. destruct fuel; simpl; [reflexivity | now rewrite E]. Qed.

Lemma loop_body_empty_pool (s : LoopState) :
  totalBandwidth s <= 0 -> loop_body s = None.
Proof.
  intros H. unfold loop_body. destruct (tasks s !! idx s); [|reflexivity].
  apply Qle_bool_iff in H. now rewrite H.
Qed.

(** The loop, started at index [length done] of [done ++ ahead], leaves
    [done] as it is and makes of [ahead] what [serve] says. *)
Lemma loop_exec_serve (ahead done : list Task) (b v : Q) (fuel : nat) :
  (length ahead <= fuel)%nat ->
  exists k,
    loop_exec fuel (mkLoopState (length done) (done ++ ahead) b v)
    = mkLoopState k (done ++ (serve ahead b v).1.1)
                  (serve ahead b v).1.2 (serve ahead b v).2.
Proof.
  revert done b v fuel.
  induction ahead as [|t rest IH]; intros done b v fuel Hfuel.
  - exists (length done). apply loop_exec_stuck. unfold loop_body. simpl.
    rewrite lookup_ge_None_2; [reflexivity | rewrite length_app; simpl; lia].
  - destruct fuel as [|fuel]; [simpl in Hfuel; lia|].
    simpl in Hfuel. simpl loop_exec. unfold loop_body. simpl idx. simpl tasks.
    simpl totalBandwidth. simpl totalPriorityValue.
    rewrite list_lookup_middle by reflexivity. simpl serve.
    destruct (Qle_bool b 0) eqn:Eb; [exists (length done); reflexivity|].
    destruct (Qle_bool (demand t) b) eqn:Ed.
    + rewrite insert_app_r_alt, Nat.sub_diag by lia. simpl.
      destruct (IH (done ++ [set_allocated t (demand t)]) (b - demand t)
                   (v + inject_Z (priority t)) fuel ltac:(lia)) as [k Hk].
      rewrite length_app, <- !app_assoc in Hk. simpl in Hk.
      rewrite Nat.add_1_r in Hk. exists k. rewrite Hk.
      destruct (serve rest _ _) as [[rest' b'] v']. reflexivity.
    + rewrite insert_app_r_alt, Nat.sub_diag by lia. simpl.
      exists (S (length done)). simpl. apply loop_exec_stuck.
      apply loop_body_empty_pool. simpl. lra.
Qed.

Lemma allocate_serve (ranked : list Task) (bandwidth : Q) :
  tasks (allocate ranked bandwidth) = (serve ranked bandwidth 0).1.1 /\
  totalBandwidth (allocate ranked bandwidth) = (serve ranked bandwidth 0).1.2 /\
  totalPriorityValue (allocate ranked bandwidth) = (serve ranked bandwidth 0).2.
Proof.
  destruct (loop_exec_serve ranked [] bandwidth 0 (length ranked) ltac:(lia)) as [k Hk].
  unfold allocate, loop_init. simpl in Hk. rewrite Hk. auto.
Qed.

(** ** What [serve] does to the entries and to the pool *)

Ltac serve_step t rest b v :=
  simpl serve;
  let Eb := fresh "Eb" in let Ed := fresh "Ed" in
  destruct (Qle_bool b 0) eqn:Eb;
  [apply Qle_bool_iff in Eb
  |apply Qle_bool_false in Eb;
   destruct (Qle_bool (demand t) b) eqn:Ed;
   [apply Qle_bool_iff in Ed | apply Qle_bool_false in Ed]].

Lemma same_content_refl (t : Task) : same_content t t.
Proof. repeat split. Qed.

Lemma same_content_set_allocated (t : Task) (a : Q) : same_content t (set_allocated t a).
Proof. repeat split. Qed.

Lemma same_content_all (ts : list Task) : Forall2 same_content ts ts.
Proof. induction ts; constructor; [apply same_content_refl | assumption]. Qed.

Lemma serve_same_content (ahead : list Task) (b v : Q) :
  Forall2 same_content ahead (serve ahead b v).1.1.
Proof.
  revert b v. induction ahead as [|t rest IH]; intros b v; [constructor|].
  serve_step t rest b v.
  - apply same_content_all.
  - specialize (IH (b - demand t) (v + inject_Z (priority t))).
    destruct (serve rest _ _) as [[rest' b'] v']. simpl in *.
    constructor; [apply same_content_set_allocated | exact IH].
  - simpl. constructor; [apply same_content_set_allocated | apply same_content_all].
Qed.

Lemma serve_bounds (ahead : list Task) (b v : Q) :
  Forall (fun t => 0 <= allocated t <= demand t) ahead ->
  Forall (fun t => 0 <= allocated t <= demand t) (serve ahead b v).1.1.
Proof.
  revert b v. induction ahead as [|t rest IH]; intros b v H; [constructor|].
  inversion H as [|? ? Ht Hrest]; subst.
  serve_step t rest b v.
  - exact H.
  - specialize (IH (b - demand t) (v + inject_Z (priority t)) Hrest).
    destruct (serve rest _ _) as [[rest' b'] v']. simpl in *.
    constructor; [simpl; lra | exact IH].
  - simpl. constructor; [simpl; lra | exact Hrest].
Qed.

Lemma Qsum_cons (q : Q) (l : list Q) : Qsum (q :: l) = q + Qsum l.
Proof. reflexivity. Qed.

Lemma sum_allocated_cons (t : Task) (ts : list Task) :
  sum_allocated (t :: ts) = allocated t + sum_allocated ts.
Proof. reflexivity. Qed.

Lemma sum_demand_cons (t : Task) (ts : list Task) :
  sum_demand (t :: ts) = demand t + sum_demand ts.
Proof. reflexivity. Qed.

Lemma sum_allocated_zero (ts : list Task) :
  Forall (fun t => allocated t == 0) ts -> sum_allocated ts == 0.
Proof.
  induction 1 as [|t ts Ht _ IH]; [reflexivity|].
  rewrite sum_allocated_cons. lra.
Qed.

Lemma sum_demand_nonneg (ts : list Task) :
  Forall (fun t => 0 <= demand t) ts -> 0 <= sum_demand ts.
Proof.
  induction 1 as [|t ts Ht _ IH]; [apply Qle_refl|].
  rewrite sum_demand_cons. lra.
Qed.

(** The pool never goes below zero, what was handed out is what left the
    pool, and a pool that is not empty at the end has met every demand. *)
Lemma serve_conservation (ahead : list Task) (b v : Q) :
  Forall (fun t => 0 <= demand t) ahead ->
  Forall (fun t => allocated t == 0) ahead ->
  0 <= b ->
  0 <= (serve ahead b v).1.2 /\
  sum_allocated (serve ahead b v).1.1 == b - (serve ahead b v).1.2 /\
  (0 < (serve ahead b v).1.2 -> sum_demand ahead == b - (serve ahead b v).1.2).
Proof.
  revert b v. induction ahead as [|t rest IH]; intros b v Hd Ha Hb.
  - simpl. repeat split; [exact Hb | unfold sum_allocated; simpl; lra
                          | intros _; unfold sum_demand; simpl; lra].
  - inversion Hd as [|? ? Hdt Hdrest]; subst.
    inversion Ha as [|? ? Hat Harest]; subst.
    serve_step t rest b v.
    + simpl. split; [exact Hb|]. split; [|intros; lra].
      rewrite (sum_allocated_zero (t :: rest) Ha). lra.
    + destruct (IH (b - demand t) (v + inject_Z (priority t)) Hdrest Harest
                  ltac:(lra)) as (H1 & H2 & H3).
      destruct (serve rest _ _) as [[rest' b'] v']. simpl in *.
      split; [exact H1|]. split.
      * rewrite sum_allocated_cons. simpl. lra.
      * intros Hpos. rewrite sum_demand_cons. specialize (H3 Hpos). lra.
    + simpl. split; [apply Qle_refl|]. split; [|intros; lra].
      rewrite sum_allocated_cons. simpl.
      rewrite (sum_allocated_zero rest Harest). lra.
Qed.

Lemma serve_allocated_le_demand (ahead : list Task) (b v : Q) :
  Forall (fun t => 0 <= allocated t <= demand t) ahead ->
  sum_allocated (serve ahead b v).1.1 <= sum_demand ahead.
Proof.
  intros H. apply (serve_bounds ahead b v) in H.
  pose proof (serve_same_content ahead b v) as Hs.
  revert H Hs. generalize (serve ahead b v).1.1 as ts'.
  induction ahead as [|t rest IH]; intros ts' H Hs.
  - inversion Hs; subst. apply Qle_refl.
  - inversion Hs as [|? t' ? rest' (_ & Hd & _) Hs']; subst.
    inversion H as [|? ? Ht Hrest]; subst.
    rewrite sum_allocated_cons, sum_demand_cons.
    specialize (IH rest' Hrest Hs'). rewrite Hd in Ht. lra.
Qed.

(** ** The array that reaches the loop *)

Lemma read_task_allocated (l : list TaskInput) :
  Forall (fun t => allocated t = 0) (map read_task l).
Proof. induction l; constructor; [reflexivity | assumption]. Qed.

Lemma read_task_ratio_ok (l : list TaskInput) : Forall ratio_ok (map read_task l).
Proof. induction l; constructor; [reflexivity | assumption]. Qed.

Lemma read_task_demand (l : list TaskInput) :
  Forall (fun e => 0 <= in_demand e) l ->
  Forall (fun t => 0 <= demand t) (map read_task l).
Proof. induction 1; constructor; assumption. Qed.

Lemma read_task_priority (l : list TaskInput) :
  Forall (fun e => (0 <= in_priority e)%Z) l ->
  Forall (fun t => (0 <= priority t)%Z) (map read_task l).
Proof. induction 1; constructor; assumption. Qed.

Lemma Ranked_Forall (P : Task -> Prop) (l ranked : list Task) :
  Ranked l ranked -> Forall P l -> Forall P ranked.
Proof. intros [Hp _]. apply Permutation_Forall, Hp. Qed.

Lemma Qsum_Permutation (l l' : list Q) : Permutation l l' -> Qsum l == Qsum l'.
Proof.
  induction 1 as [|x l l' _ IH|x y l|l l' l'' _ IH1 _ IH2].
  - reflexivity.
  - rewrite !Qsum_cons, IH. reflexivity.
  - rewrite !Qsum_cons. lra.
  - now rewrite IH1.
Qed.

Lemma same_content_demands (ts ts' : list Task) :
  Forall2 same_content ts ts' -> map demand ts' = map demand ts.
Proof.
  induction 1 as [|t t' ts ts' (_ & Hd & _) _ IH]; [reflexivity|].
  simpl. now rewrite Hd, IH.
Qed.

(** [main_stable] is a run of [main]. *)
Lemma main_stable_run (inp : Input) :
  ((0 < in_numTasks inp)%Z -> malloc_ok inp = true ->
   Z.of_nat (length (in_tasks inp)) = in_numTasks inp) ->
  main inp (main_stable inp).
Proof.
  intros Hlen. unfold main_stable.
  destruct (in_numTasks inp <=? 0)%Z eqn:En.
  - apply main_no_tasks. now apply Z.leb_le.
  - apply Z.leb_gt in En. destruct (malloc_ok inp) eqn:Em; simpl.
    + apply main_allocated; [assumption | assumption | now apply Hlen | apply Ranked_stable].
    + now apply main_malloc_failed.
Qed.

(** Every well-formed input has a run. *)
Lemma main_total (inp : Input) : wf_input inp -> exists out, main inp out.
Proof.
  intros (_ & Hlen & _). exists (main_stable inp). apply main_stable_run. auto.
Qed.

(** The state of the allocation loop of a run that reaches it. *)
Lemma finish_serve (inp : Input) (ranked : list Task) :
  let r := serve ranked (in_totalBandwidth inp) 0 in
  tasks (final (finish inp ranked)) = r.1.1 /\
  totalBandwidth (final (finish inp ranked)) = r.1.2 /\
  totalPriorityValue (final (finish inp ranked)) = r.2.
Proof. apply allocate_serve. Qed.

(** ** Ratios and credits *)

Lemma Qmult_le_nonneg_l (x y z : Q) : 0 <= z -> x <= y -> z * x <= z * y.
Proof.
  intros Hz Hxy. rewrite (Qmult_comm z x), (Qmult_comm z y).
  now apply Qmult_le_compat_r.
Qed.

Lemma inject_Z_nonneg (z : Z) : (0 <= z)%Z -> 0 <= inject_Z z.
Proof. intros H. change 0 with (inject_Z 0). now rewrite <- Zle_Qle. Qed.

Lemma inject_Z_pos (z : Z) : (0 < z)%Z <-> 0 < inject_Z z.
Proof. change 0 with (inject_Z 0). rewrite <- Zlt_Qlt. reflexivity. Qed.

Lemma ratio_pos_demand (t : Task) :
  ratio_ok t -> 0 < demand t -> ratio t == inject_Z (priority t) / demand t.
Proof.
  unfold ratio_ok, computeRatio. intros -> Hd.
  apply Qltb_true in Hd. rewrite Hd. reflexivity.
Qed.

Lemma ratio_zero_demand (t : Task) :
  ratio_ok t -> demand t <= 0 -> (0 < priority t)%Z -> ratio t = SENTINEL.
Proof.
  unfold ratio_ok, computeRatio. intros -> Hd Hp.
  apply Qltb_false in Hd. rewrite Hd.
  apply inject_Z_pos, Qltb_true in Hp. now rewrite Hp.
Qed.

Lemma priority_ratio (t : Task) :
  ratio_ok t -> 0 < demand t -> inject_Z (priority t) == ratio t * demand t.
Proof.
  intros Hok Hd. rewrite (ratio_pos_demand t Hok Hd). field. lra.
Qed.

Lemma fraction_ratio (t : Task) (a : Q) :
  ratio_ok t -> 0 < demand t ->
  (a / demand t) * inject_Z (priority t) == ratio t * a.
Proof.
  intros Hok Hd. rewrite (ratio_pos_demand t Hok Hd). field. lra.
Qed.

Lemma ratio_nonneg (t : Task) :
  ratio_ok t -> (0 <= priority t)%Z -> 0 <= ratio t.
Proof.
  intros Hok Hp. destruct (Qlt_le_dec 0 (demand t)) as [Hd|Hd].
  - rewrite (ratio_pos_demand t Hok Hd). apply Qle_shift_div_l; [exact Hd|].
    apply inject_Z_nonneg in Hp. lra.
  - unfold ratio_ok, computeRatio in Hok. rewrite Hok.
    apply Qltb_false in Hd. rewrite Hd.
    destruct (Qltb 0 (inject_Z (priority t))); unfold SENTINEL; lra.
Qed.

Lemma credit_pos_ratio (t : Task) (a : Q) :
  ratio_ok t -> 0 < demand t -> credit_pos t a == ratio t * a.
Proof.
  intros Hok Hd. unfold credit_pos.
  pose proof Hd as Hd'. apply Qltb_true in Hd'. rewrite Hd'.
  now apply fraction_ratio.
Qed.

Lemma credit_pos_zero (t : Task) (a : Q) : demand t <= 0 -> credit_pos t a = 0.
Proof. intros Hd. unfold credit_pos. apply Qltb_false in Hd. now rewrite Hd. Qed.

Lemma allocation_value_pos_cons (t : Task) (ts : list Task) (a : Q) (x : list Q) :
  allocation_value_pos (t :: ts) (a :: x) = credit_pos t a + allocation_value_pos ts x.
Proof. reflexivity. Qed.

(** No allocation within the demands is worth more than the largest
    ratio times the amount it hands out. *)
Lemma allocation_value_pos_bound (ts : list Task) (x : list Q) (R : Q) :
  Forall ratio_ok ts -> 0 <= R ->
  Forall (fun t => ratio t <= R) ts ->
  Forall2 (fun t a => 0 <= a <= demand t) ts x ->
  allocation_value_pos ts x <= R * Qsum x.
Proof.
  intros Hok HR Hr Hx. revert Hok Hr.
  induction Hx as [|t a ts x Ha _ IH]; intros Hok Hr.
  - unfold allocation_value_pos. simpl. lra.
  - inversion Hok as [|? ? Hokt Hok']; subst. inversion Hr as [|? ? Hrt Hr']; subst.
    specialize (IH Hok' Hr'). rewrite allocation_value_pos_cons, Qsum_cons.
    assert (Hc : credit_pos t a <= R * a).
    { destruct (Qlt_le_dec 0 (demand t)) as [Hd|Hd].
      - rewrite (credit_pos_ratio t a Hokt Hd). apply Qmult_le_compat_r; lra.
      - rewrite (credit_pos_zero t a Hd). apply Qmult_le_0_compat; lra. }
    lra.
Qed.

(** ** The greedy pass against any allocation

    [x] stays within the demands and may overdraw the pool [b] by [E];
    each overdrawn unit is worth at most the largest ratio [R]. *)
Lemma greedy_bound (ts : list Task) :
  StronglySorted (fun a b => ratio b <= ratio a) ts ->
  Forall ratio_ok ts ->
  Forall (fun t => 0 <= demand t) ts ->
  Forall (fun t => (0 <= priority t)%Z) ts ->
  forall (b v R E : Q) (x : list Q),
    0 <= b -> 0 <= E -> 0 <= R ->
    Forall (fun t => ratio t <= R) ts ->
    Forall2 (fun t a => 0 <= a <= demand t) ts x ->
    Qsum x <= b + E ->
    allocation_value_pos ts x + zero_demand_credit ts b
    <= (serve ts b v).2 - v + R * E.
Proof.
  induction 1 as [|t rest Hsorted IH Hhead]; intros Hok Hd Hp b v R E x Hb HE HR Hr Hx Hsum.
  - inversion Hx; subst. unfold allocation_value_pos. simpl.
    assert (0 <= R * E) by (apply Qmult_le_0_compat; assumption). lra.
  - inversion Hx as [|? a ? xs Ha Hxs]; subst.
    inversion Hok as [|? ? Hokt Hok']; subst.
    inversion Hd as [|? ? Hdt Hd']; subst.
    inversion Hp as [|? ? Hpt Hp']; subst.
    inversion Hr as [|? ? Hrt Hr']; subst.
    pose proof (ratio_nonneg t Hokt Hpt) as Hr0.
    assert (HrE : ratio t * E <= R * E) by (apply Qmult_le_compat_r; assumption).
    rewrite Qsum_cons in Hsum.
    simpl zero_demand_credit. serve_step t rest b v.
    + (* the pool is empty *)
      simpl. pose proof (allocation_value_pos_bound (t :: rest) (a :: xs) R Hok HR Hr Hx) as Hv.
      rewrite Qsum_cons in Hv.
      assert (R * (a + Qsum xs) <= R * E) by (apply Qmult_le_nonneg_l; lra).
      lra.
    + (* the demand is met *)
      specialize (IH Hok' Hd' Hp' (b - demand t) (v + inject_Z (priority t))
                    (ratio t) (E + demand t - a) xs
                    ltac:(lra) ltac:(lra) Hr0 Hhead Hxs ltac:(lra)).
      destruct (serve rest _ _) as [[rest' b'] v']. simpl in IH |- *.
      rewrite allocation_value_pos_cons.
      destruct (Qlt_le_dec 0 (demand t)) as [Hpos|Hzero].
      * pose proof Hpos as Hpos'. apply Qltb_true in Hpos'. rewrite Hpos'.
        pose proof (credit_pos_ratio t a Hokt Hpos) as Hc.
        pose proof (priority_ratio t Hokt Hpos) as Hpr. lra.
      * pose proof Hzero as Hzero'. apply Qltb_false in Hzero'. rewrite Hzero'.
        rewrite (credit_pos_zero t a Hzero).
        assert (Ha0 : a == 0) by lra. assert (Hd0 : demand t == 0) by lra.
        assert (ratio t * (E + demand t - a) == ratio t * E) by (rewrite Ha0, Hd0; ring).
        lra.
    + (* the pool runs out on this entry *)
      simpl.
      assert (Hpos : 0 < demand t) by lra.
      assert (Hall : Forall (fun u => ratio u <= ratio t) (t :: rest))
        by (constructor; [apply Qle_refl | exact Hhead]).
      pose proof (allocation_value_pos_bound (t :: rest) (a :: xs) (ratio t) Hok Hr0 Hall Hx) as Hv.
      rewrite Qsum_cons in Hv.
      pose proof (fraction_ratio t b Hokt Hpos) as Hf.
      assert (ratio t * (a + Qsum xs) <= ratio t * (b + E)) by (apply Qmult_le_nonneg_l; lra).
      lra.
Qed.

Lemma Ranked_sorted (l ranked : list Task) :
  Ranked l ranked -> StronglySorted (fun a b => ratio b <= ratio a) ranked.
Proof.
  intros [_ Hs]. induction Hs as [|t rest _ IH Ht]; constructor; [exact IH|].
  eapply Forall_impl; [exact Ht|]. intros u. apply compareTasks_le.
Qed.

(** With nothing overdrawn: the loop credits at least the value of [x]
    over the entries that demand something, on top of what it credits
    to those that demand nothing. *)
Lemma greedy_bound_within (ts : list Task) (b v : Q) (x : list Q) :
  StronglySorted (fun a b => ratio b <= ratio a) ts ->
  Forall ratio_ok ts ->
  Forall (fun t => 0 <= demand t) ts ->
  Forall (fun t => (0 <= priority t)%Z) ts ->
  0 <= b -> feasible ts x b ->
  allocation_value_pos ts x + zero_demand_credit ts b <= (serve ts b v).2 - v.
Proof.
  intros Hs Hok Hd Hp Hb [Hx Hsum].
  destruct ts as [|t rest].
  - inversion Hx; subst. unfold allocation_value_pos. simpl. lra.
  - assert (Hr0 : 0 <= ratio t).
    { inversion Hok; subst. inversion Hp; subst. now apply ratio_nonneg. }
    assert (Hall : Forall (fun u => ratio u <= ratio t) (t :: rest)).
    { inversion Hs; subst. constructor; [apply Qle_refl | assumption]. }
    pose proof (greedy_bound (t :: rest) Hs Hok Hd Hp b v (ratio t) 0 x Hb
                  ltac:(lra) Hr0 Hall Hx ltac:(lra)) as H.
    lra.
Qed.

Lemma zero_demand_credit_nonneg (ts : list Task) (b : Q) :
  Forall (fun t => (0 <= priority t)%Z) ts -> 0 <= zero_demand_credit ts b.
Proof.
  intros Hp. revert b. induction Hp as [|t rest Ht _ IH]; intros b; simpl.
  - lra.
  - apply inject_Z_nonneg in Ht. specialize (IH (b - demand t)).
    case_Q; lra.
Qed.

Lemma zero_demand_priority_cons (t : Task) (ts : list Task) :
  zero_demand_priority (t :: ts)
  = (if Qltb 0 (demand t) then 0 else inject_Z (priority t)) + zero_demand_priority ts.
Proof. reflexivity. Qed.

(** Entries that demand nothing and have no priority count for nothing. *)
Lemma zero_demand_nothing (ts : list Task) :
  Forall (fun t => 0 < demand t \/ priority t = 0%Z) ts ->
  zero_demand_priority ts == 0 /\ forall b, zero_demand_credit ts b == 0.
Proof.
  induction 1 as [|t rest Ht _ [IH1 IH2]].
  - split; [reflexivity | intros; reflexivity].
  - assert (Hterm : (if Qltb 0 (demand t) then 0 else inject_Z (priority t)) == 0).
    { destruct Ht as [Ht|Ht].
      - apply Qltb_true in Ht. rewrite Ht. reflexivity.
      - rewrite Ht. destruct (Qltb 0 (demand t)); reflexivity. }
    split.
    + rewrite zero_demand_priority_cons, Hterm, IH1. lra.
    + intros b. simpl. specialize (IH2 (b - demand t)).
      destruct (Qle_bool b 0); [reflexivity|].
      destruct (Qle_bool (demand t) b); [|reflexivity].
      rewrite Hterm, IH2. lra.
Qed.

Lemma below_sentinel_nothing (ts : list Task) (r : Q) :
  Forall ratio_ok ts ->
  Forall (fun t => (0 <= priority t)%Z) ts ->
  Forall (fun t => ratio t <= r) ts -> r < SENTINEL ->
  Forall (fun t => 0 < demand t \/ priority t = 0%Z) ts.
Proof.
  intros Hok Hp Hr Hlt. rewrite Forall_forall in Hok, Hp, Hr |- *.
  intros t Ht. destruct (Qlt_le_dec 0 (demand t)) as [Hd|Hd]; [now left|]. right.
  destruct (Z.eq_dec (priority t) 0%Z) as [|Hne]; [assumption|].
  specialize (Hp t Ht). simpl in Hp.
  pose proof (ratio_zero_demand t (Hok t Ht) Hd ltac:(lia)) as Hs.
  specialize (Hr t Ht). simpl in Hr. rewrite Hs in Hr. lra.
Qed.

(** With a pool that is not empty and no ratio of a demanding entry
    reaching the sentinel, every entry that demands nothing is credited. *)
Lemma zero_demand_credit_all (ts : list Task) :
  StronglySorted (fun a b => ratio b <= ratio a) ts ->
  Forall ratio_ok ts ->
  Forall (fun t => 0 <= demand t) ts ->
  Forall (fun t => (0 <= priority t)%Z) ts ->
  Forall (fun t => 0 < demand t -> ratio t < SENTINEL) ts ->
  forall b, 0 < b -> zero_demand_credit ts b == zero_demand_priority ts.
Proof.
  induction 1 as [|t rest Hsorted IH Hhead]; intros Hok Hd Hp Hsen b Hb.
  - reflexivity.
  - inversion Hok as [|? ? Hokt Hok']; subst.
    inversion Hd as [|? ? Hdt Hd']; subst.
    inversion Hp as [|? ? Hpt Hp']; subst.
    inversion Hsen as [|? ? Hsent Hsen']; subst.
    rewrite zero_demand_priority_cons. simpl zero_demand_credit.
    pose proof Hb as Hb'. apply Qle_bool_false in Hb'. rewrite Hb'.
    destruct (Qlt_le_dec 0 (demand t)) as [Hpos|Hzero].
    + destruct (zero_demand_nothing rest
                  (below_sentinel_nothing rest (ratio t) Hok' Hp' Hhead (Hsent Hpos)))
        as [H1 H2].
      apply Qltb_true in Hpos. rewrite Hpos, H1.
      destruct (Qle_bool (demand t) b); [rewrite H2|]; lra.
    + assert (Hle : demand t <= b) by lra. apply Qle_bool_iff in Hle. rewrite Hle.
      rewrite (IH Hok' Hd' Hp' Hsen' (b - demand t)) by lra. reflexivity.
Qed.

Lemma allocation_value_cons (t : Task) (ts : list Task) (a : Q) (x : list Q) :
  allocation_value (t :: ts) (a :: x) = credit t a + allocation_value ts x.
Proof. reflexivity. Qed.

(** The value of an allocation within the demands: what it is worth
    over the demanding entries, and the priorities of the others. *)
Lemma allocation_value_split (ts : list Task) (x : list Q) :
  Forall (fun t => 0 <= demand t) ts ->
  Forall2 (fun t a => 0 <= a <= demand t) ts x ->
  allocation_value ts x == allocation_value_pos ts x + zero_demand_priority ts.
Proof.
  intros Hd Hx. revert Hd. induction Hx as [|t a ts x Ha _ IH]; intros Hd.
  - unfold allocation_value, allocation_value_pos, zero_demand_priority. simpl. lra.
  - inversion Hd as [|? ? Hdt Hd']; subst. specialize (IH Hd').
    rewrite allocation_value_cons, allocation_value_pos_cons.
    rewrite zero_demand_priority_cons.
    assert (Hc : credit t a == credit_pos t a
                 + (if Qltb 0 (demand t) then 0 else inject_Z (priority t))).
    { unfold credit, credit_pos. case_Q; try lra.
      assert (Heq : a == demand t) by lra. rewrite Heq. field. lra. }
    lra.
Qed.

Lemma same_content_value (ts ts' : list Task) (x : list Q) :
  Forall2 same_content ts ts' ->
  allocation_value ts' x = allocation_value ts x /\
  allocation_value_pos ts' x = allocation_value_pos ts x.
Proof.
  intros H. revert x. induction H as [|t t' ts ts' (_ & Hd & Hp & _) _ IH]; intros x.
  - split; reflexivity.
  - destruct x as [|a x]; [split; reflexivity|].
    destruct (IH x) as [IH1 IH2].
    rewrite !allocation_value_cons, !allocation_value_pos_cons, IH1, IH2.
    unfold credit, credit_pos. rewrite Hd, Hp. split; reflexivity.
Qed.

Lemma same_content_feasible (ts ts' : list Task) (x : list Q) (b : Q) :
  Forall2 same_content ts ts' -> feasible ts' x b -> feasible ts x b.
Proof.
  intros H [Hx Hs]. split; [|exact Hs]. clear Hs. revert x Hx.
  induction H as [|t t' ts ts' (_ & Hd & _) _ IH]; intros x Hx.
  - inversion Hx; subst. constructor.
  - inversion Hx as [|? a ? xs Ha Hxs]; subst. constructor; [|now apply IH].
    rewrite <- Hd. exact Ha.
Qed.

(** ** Runs of [main], case by case *)

Lemma main_inv (inp : Input) (out : Outcome) :
  main inp out ->
  ((in_numTasks inp <= 0)%Z /\ out = early_exit 0 inp) \/
  ((0 < in_numTasks inp)%Z /\ malloc_ok inp = false /\ out = early_exit 1 inp) \/
  ((0 < in_numTasks inp)%Z /\ malloc_ok inp = true /\
   exists ranked, Ranked (map read_task (in_tasks inp)) ranked /\ out = finish inp ranked).
Proof.
  intros [inp' H|inp' H1 H2|inp' ranked H1 H2 _ H3]; [left | right; left | right; right]; eauto.
Qed.

(** A single entry can be ranked in one way only. *)
Lemma Ranked_singleton (t : Task) (ranked : list Task) : Ranked [t] ranked -> ranked = [t].
Proof. intros [Hp _]. now apply Permutation_singleton_l in Hp. Qed.

Lemma Ranked_pair (t u : Task) (ranked : list Task) :
  Ranked [t; u] ranked ->
  (ranked = [t; u] /\ ratio u <= ratio t) \/ (ranked = [u; t] /\ ratio t <= ratio u).
Proof.
  intros [Hp Hs]. apply Permutation_length_2_inv in Hp as [->| ->]; [left | right];
    (split; [reflexivity|]); inversion Hs as [|? ? _ Hh]; subst;
    inversion Hh; subst; now apply compareTasks_le.
Qed.

(** ** Entries that demand nothing *)

Lemma serve_zero_demand (ahead : list Task) (b v : Q) :
  Forall (fun t => allocated t == 0) ahead ->
  Forall (fun t => demand t == 0 -> allocated t == 0) (serve ahead b v).1.1.
Proof.
  revert b v. induction ahead as [|t rest IH]; intros b v Ha; [constructor|].
  inversion Ha as [|? ? Hat Harest]; subst.
  assert (Hkeep : forall l, Forall (fun t => allocated t == 0) l ->
                            Forall (fun t => demand t == 0 -> allocated t == 0) l)
    by (intros l Hl; eapply Forall_impl; [exact Hl | auto]).
  serve_step t rest b v.
  - simpl. now apply Hkeep.
  - specialize (IH (b - demand t) (v + inject_Z (priority t)) Harest).
    destruct (serve rest _ _) as [[rest' b'] v']. simpl in *.
    constructor; [simpl; auto | exact IH].
  - simpl. constructor; [simpl; intros; lra | now apply Hkeep].
Qed.

(** While the entries met so far demand nothing, the loop goes on with
    the pool as it was and the entries ahead as they were. *)
Lemma trace_prefix_served (ranked : list Task) (bandwidth : Q) (i : nat) :
  0 < bandwidth ->
  (forall k u, (k < i)%nat -> ranked !! k = Some u -> demand u <= 0) ->
  (i <= length ranked)%nat ->
  exists s,
    allocate_trace ranked bandwidth !! i = Some s /\ idx s = i /\
    bandwidth <= totalBandwidth s /\
    length (tasks s) = length ranked /\
    (forall j, (i <= j)%nat -> tasks s !! j = ranked !! j).
Proof.
  intros Hb. induction i as [|i IH]; intros Hserved Hlen.
  - exists (loop_init ranked bandwidth). unfold allocate_trace.
    rewrite loop_trace_head. simpl. repeat split; try reflexivity. apply Qle_refl.
  - destruct IH as (s & Hs & Hidx & Hpool & Hl & Hahead);
      [intros k u Hk; apply Hserved; lia | lia |].
    destruct (lookup_lt_is_Some_2 ranked i ltac:(lia)) as [u Hu].
    pose proof (Hserved i u ltac:(lia) Hu) as Hdu.
    assert (Hstep : loop_body s
                    = Some {| idx := S i;
                              tasks := <[i := set_allocated u (demand u)]> (tasks s);
                              totalBandwidth := totalBandwidth s - demand u;
                              totalPriorityValue :=
                                totalPriorityValue s + inject_Z (priority u) |}).
    { unfold loop_body. rewrite Hidx, (Hahead i) by lia. rewrite Hu.
      assert (E1 : Qle_bool (totalBandwidth s) 0 = false) by (apply Qle_bool_false; lra).
      assert (E2 : Qle_bool (demand u) (totalBandwidth s) = true) by (apply Qle_bool_iff; lra).
      rewrite E1, E2. reflexivity. }
    eexists. split; [|split; [|split; [|split]]].
    + unfold allocate_trace in *. eapply loop_trace_extend; [exact Hs | lia | exact Hstep].
    + reflexivity.
    + simpl. lra.
    + simpl. rewrite length_insert. exact Hl.
    + intros j Hj. simpl. rewrite list_lookup_insert_ne by lia. apply Hahead. lia.
Qed.

(** ** Rankings of one array *)

Lemma descending_sorted (l : list Task) :
  descending l <-> StronglySorted (fun a b => (compareTasks a b <= 0)%Z) l.
Proof.
  split.
  - induction l as [|t rest IH]; intros Hd; constructor.
    + apply IH. intros i j a b Hij Ha Hb. apply (Hd (S i) (S j) a b); [lia | exact Ha | exact Hb].
    + rewrite Forall_forall. intros u Hu. apply list_elem_of_lookup_1 in Hu as [j Hj].
      apply compareTasks_le. apply (Hd 0%nat (S j) t u); [lia | reflexivity | exact Hj].
  - intros Hs i j a b. apply (Ranked_descending l l). split; [reflexivity | exact Hs].
Qed.

Lemma Ranked_iff (base result : list Task) :
  Ranked base result <-> Permutation base result /\ descending result.
Proof. unfold Ranked, qsort_post. now rewrite descending_sorted. Qed.

Lemma tied_with_cons (r : Q) (t : Task) (l : list Task) :
  tied_with r (t :: l) = if Qeq_bool (ratio t) r then t :: tied_with r l else tied_with r l.
Proof. reflexivity. Qed.

Lemma tied_with_Permutation (r : Q) (l l' : list Task) :
  Permutation l l' -> length (tied_with r l) = length (tied_with r l').
Proof.
  induction 1 as [|x l l' _ IH|x y l|l l' l'' _ IH1 _ IH2].
  - reflexivity.
  - rewrite !tied_with_cons. destruct (Qeq_bool (ratio x) r); simpl; congruence.
  - rewrite !tied_with_cons.
    destruct (Qeq_bool (ratio x) r), (Qeq_bool (ratio y) r); reflexivity.
  - congruence.
Qed.

Lemma tied_with_occurs (r : Q) (l : list Task) :
  (0 < length (tied_with r l))%nat -> exists t, t ∈ l /\ ratio t == r.
Proof.
  induction l as [|u l IH]; [simpl; lia|].
  rewrite tied_with_cons. destruct (Qeq_bool (ratio u) r) eqn:E.
  - intros _. exists u. split; [left | now apply Qeq_bool_iff].
  - intros H. destruct (IH H) as (t & Ht & Hr). exists t. split; [now right | exact Hr].
Qed.

Lemma tied_with_head (t : Task) (l : list Task) :
  (0 < length (tied_with (ratio t) (t :: l)))%nat.
Proof.
  rewrite tied_with_cons.
  assert (E : Qeq_bool (ratio t) (ratio t) = true) by (apply Qeq_bool_iff; reflexivity).
  rewrite E. simpl. lia.
Qed.

(** The head of a descending array has the largest ratio. *)
Lemma sorted_head_max (t u : Task) (l : list Task) :
  StronglySorted (fun a b => ratio b <= ratio a) (t :: l) -> u ∈ t :: l -> ratio u <= ratio t.
Proof.
  intros Hs Hu. inversion Hs as [|? ? _ Hh]; subst.
  apply elem_of_cons in Hu as [->|Hu]; [apply Qle_refl|].
  rewrite Forall_forall in Hh. now apply Hh.
Qed.

(** Two descending arrays with as many entries of each ratio carry the
    same ratios index by index. *)
Lemma sorted_same_ratios (l l' : list Task) :
  StronglySorted (fun a b => ratio b <= ratio a) l ->
  StronglySorted (fun a b => ratio b <= ratio a) l' ->
  (forall r, length (tied_with r l) = length (tied_with r l')) ->
  same_ratios l l'.
Proof.
  intros Hs. revert l'. induction Hs as [|a l Hl IH Ha]; intros l' Hs' Hcount.
  - destruct l' as [|b l']; [constructor|].
    pose proof (tied_with_head b l') as H. rewrite <- Hcount in H. simpl in H. lia.
  - destruct l' as [|b l'].
    + pose proof (tied_with_head a l) as H. rewrite Hcount in H. simpl in H. lia.
    + assert (Hsa : StronglySorted (fun a b => ratio b <= ratio a) (a :: l))
        by (constructor; assumption).
      assert (Hab : ratio a == ratio b).
      { pose proof (tied_with_head a l) as H1. rewrite Hcount in H1.
        apply tied_with_occurs in H1 as (c & Hc & Hrc).
        pose proof (sorted_head_max b c l' Hs' Hc) as Hle1.
        pose proof (tied_with_head b l') as H2. rewrite <- Hcount in H2.
        apply tied_with_occurs in H2 as (d & Hd & Hrd).
        pose proof (sorted_head_max a d l Hsa Hd) as Hle2. lra. }
      constructor; [exact Hab|]. apply IH; [now inversion Hs'|].
      intros r. specialize (Hcount r). rewrite !tied_with_cons in Hcount.
      assert (E : Qeq_bool (ratio a) r = Qeq_bool (ratio b) r).
      { destruct (Qeq_bool (ratio b) r) eqn:Eb.
        - apply Qeq_bool_iff in Eb. apply Qeq_bool_iff. lra.
        - apply not_true_iff_false. intros Ea. apply Qeq_bool_iff in Ea.
          apply not_true_iff_false in Eb. apply Eb, Qeq_bool_iff. lra. }
      rewrite E in Hcount. destruct (Qeq_bool (ratio b) r); simpl in Hcount; lia.
Qed.

Lemma Ranked_same_ratios (base result result' : list Task) :
  Ranked base result -> Ranked base result' -> same_ratios result result'.
Proof.
  intros H H'. apply sorted_same_ratios; [eapply Ranked_sorted, H | eapply Ranked_sorted, H'|].
  intros r. destruct H as [Hp _], H' as [Hp' _].
  rewrite <- (tied_with_Permutation r _ _ Hp). apply tied_with_Permutation, Hp'.
Qed.

(** Where equal ratios mean equal entries, equal ratios index by index
    mean equal arrays. *)
Lemma same_ratios_eq (base l l' : list Task) :
  (forall a b, a ∈ base -> b ∈ base -> ratio a == ratio b -> a = b) ->
  (forall a, a ∈ l -> a ∈ base) -> (forall b, b ∈ l' -> b ∈ base) ->
  same_ratios l l' -> l = l'.
Proof.
  intros Hinj Hl Hl' H. induction H as [|a b l l' Hab _ IH]; [reflexivity|].
  f_equal.
  - apply Hinj; [apply Hl; left | apply Hl'; left | exact Hab].
  - apply IH; intros c Hc; [apply Hl | apply Hl']; now right.
Qed.

(** [qsort_stable] leaves an ordered array as it is. *)
Lemma qsort_stable_sorted {A : Type} (compar : A -> A -> Z) (l : list A) :
  StronglySorted (fun a b => (compar a b <= 0)%Z) l -> qsort_stable compar l = l.
Proof.
  induction 1 as [|x l _ IH Hx]; [reflexivity|].
  simpl. rewrite IH. destruct l as [|y l]; [reflexivity|].
  inversion Hx as [|? ? Hxy _]; subst. simpl.
  apply Z.leb_le in Hxy. now rewrite Hxy.
Qed.

(** [qsort_stable] keeps entries of equal ratio in the order they had:
    an entry being inserted passes only entries of larger ratio. *)
Lemma qsort_insert_tied (r : Q) (t : Task) (l : list Task) :
  tied_with r (qsort_insert compareTasks t l) = tied_with r (t :: l).
Proof.
  induction l as [|u l IH]; [reflexivity|].
  simpl qsort_insert. destruct (compareTasks t u <=? 0)%Z eqn:E; [reflexivity|].
  apply Z.leb_gt in E.
  assert (Hlt : ratio t < ratio u).
  { apply Qnot_le_lt. intros Hle. apply compareTasks_le in Hle. lia. }
  rewrite tied_with_cons, IH, !tied_with_cons.
  destruct (Qeq_bool (ratio u) r) eqn:Eu; [|reflexivity].
  destruct (Qeq_bool (ratio t) r) eqn:Et; [|reflexivity].
  apply Qeq_bool_iff in Eu, Et. lra.
Qed.

Lemma qsort_stable_is_stable (l : list Task) :
  stable_ranking l (qsort_stable compareTasks l).
Proof.
  intros r. induction l as [|t l IH]; [reflexivity|].
  simpl qsort_stable. rewrite qsort_insert_tied, !tied_with_cons, IH. reflexivity.
Qed.

(** ** The scenario of three tasks sharing 100 units

    Ratios A = 1, B = 2, C = 1; B is served in full, A gets the 50 that
    are left, C gets nothing; the value achieved is 150. *)

Example example_input_wf : wf_input example_input.
Proof.
  unfold wf_input, is_int, INT_MIN, INT_MAX. simpl.
  split; [lia|]. split; [reflexivity|]. repeat constructor; simpl; lia.
Qed.

Example example_ranking :
  map name (tasks (final (main_stable example_input))) = ["B"; "A"; "C"]%string.
Proof. reflexivity. Qed.

Example example_allocation :
  map allocated (tasks (final (main_stable example_input))) = [50; 50; 0].
Proof. reflexivity. Qed.

Example example_value :
  totalPriorityValue (final (main_stable example_input)) == 150.
Proof. reflexivity. Qed.

Example example_summary :
  option_map bandwidth_used (summary (main_stable example_input)) = Some 100.
Proof. reflexivity. Qed.

Example counterexample_inputs_wf :
  wf_input zero_capacity_input /\ wf_input sentinel_input /\ wf_input tie_input /\
  wf_input no_tasks_input /\ wf_input negative_capacity_input.
Proof.
  unfold wf_input, is_int, INT_MIN, INT_MAX. simpl.
  repeat split; try lia; try discriminate; repeat constructor; simpl; lia.
Qed.

(** * Properties of a run *)

(** ** Bounds *)

(** C4: in every run with non-negative demands, every entry ends with
    [0 <= allocated <= demand].  (Neither the priorities nor the
    capacity need be constrained for this.) *)
Theorem allocated_within_demand (inp : Input) (out : Outcome) :
  main inp out ->
  Forall (fun e => 0 <= in_demand e) (in_tasks inp) ->
  Forall (fun t => 0 <= allocated t <= demand t) (tasks (final out)).
Proof.
  intros Hrun Hd. destruct Hrun as [inp _|inp _ _|inp ranked _ _ _ Hr];
    [constructor | constructor |].
  destruct (finish_serve inp ranked) as (-> & _ & _).
  apply serve_bounds. apply (Ranked_Forall _ _ _ Hr).
  pose proof (read_task_allocated (in_tasks inp)) as Ha.
  pose proof (read_task_demand _ Hd) as Hd'.
  rewrite Forall_forall in Ha, Hd' |- *. intros t Ht.
  rewrite (Ha t Ht). specialize (Hd' t Ht). simpl in Hd'. lra.
Qed.

Lemma allocated_within_demand_witness :
  Forall (fun t => 0 <= allocated t <= demand t)
         (tasks (final (main_stable example_input))).
Proof.
  apply (allocated_within_demand example_input).
  - apply main_stable_run. reflexivity.
  - repeat constructor; simpl; lra.
Defined.

(** ** Conservation *)



(** ** A task count that is not positive *)

(** C7: when the entered count is [<= 0] the program has a run, and every
    run of it ends with status 0 before the array exists: no iteration
    of the allocation loop, no entry, no value, no report.  In any run
    whatever, a status other than 0 means that [malloc] failed. *)
Theorem invalid_count_exit (inp : Input) :
  ((in_numTasks inp <= 0)%Z ->
   main inp (early_exit 0 inp) /\
   forall out, main inp out ->
     exit_status out = 0%Z /\ iterations (trace out) = 0%nat /\ tasks (final out) = [] /\
     totalPriorityValue (final out) = 0 /\ summary out = None /\ table out = []) /\
  (forall out, main inp out -> exit_status out <> 0%Z -> malloc_ok inp = false).
Proof.
  split.
  - intros Hn. split; [now apply main_no_tasks|].
    intros out Hrun. destruct Hrun; [repeat split | lia | lia].
  - intros out Hrun Hs. destruct Hrun; simpl in Hs; congruence.
Qed.

Lemma invalid_count_exit_witness :
  main no_tasks_input (early_exit 0 no_tasks_input) /\
  exit_status (main_stable no_tasks_input) = 0%Z /\
  totalPriorityValue (final (main_stable no_tasks_input)) = 0.
Proof.
  destruct (invalid_count_exit no_tasks_input) as [H _].
  destruct (H ltac:(simpl; lia)) as [Hrun Hall].
  split; [exact Hrun|].
  destruct (Hall (main_stable no_tasks_input) Hrun) as (H1 & _ & _ & H4 & _).
  split; [exact H1 | exact H4].
Defined.

(** ** The pool *)

Lemma loop_body_demands (a b : LoopState) :
  Forall (fun t => 0 <= demand t) (tasks a) -> loop_body a = Some b ->
  Forall (fun t => 0 <= demand t) (tasks b).
Proof.
  intros Ha. unfold loop_body. destruct (tasks a !! idx a) as [t|] eqn:Et; [|discriminate].
  assert (Ht : 0 <= demand t) by (rewrite Forall_forall in Ha; eapply Ha, list_elem_of_lookup_2, Et).
  destruct (Qle_bool (totalBandwidth a) 0); [discriminate|].
  destruct (Qle_bool _ _); intros [= <-]; simpl; apply Forall_insert; assumption.
Qed.

Lemma loop_body_pool (a b : LoopState) :
  Forall (fun t => 0 <= demand t) (tasks a) -> loop_body a = Some b ->
  totalBandwidth b <= totalBandwidth a.
Proof.
  intros Ha. unfold loop_body. destruct (tasks a !! idx a) as [t|] eqn:Et; [|discriminate].
  assert (Ht : 0 <= demand t) by (rewrite Forall_forall in Ha; eapply Ha, list_elem_of_lookup_2, Et).
  destruct (Qle_bool (totalBandwidth a) 0) eqn:Eb; [discriminate|].
  apply Qle_bool_false in Eb.
  destruct (Qle_bool _ _); intros [= <-]; simpl; lra.
Qed.

(** C8: in every run over entries with non-negative demands, the pool
    at the head of the allocation loop starts at the total capacity
    entered, and no iteration of the loop leaves it larger than it
    found it. *)
Theorem pool_non_increasing (inp : Input) (out : Outcome) :
  main inp out ->
  Forall (fun e => 0 <= in_demand e) (in_tasks inp) ->
  (forall s, trace out !! 0%nat = Some s -> totalBandwidth s = in_totalBandwidth inp) /\
  (forall k a b, trace out !! k = Some a -> trace out !! S k = Some b ->
     loop_body a = Some b /\ totalBandwidth b <= totalBandwidth a) /\
  last (trace out) = match summary out with Some _ => Some (final out) | None => None end.
Proof.
  intros Hrun Hd. destruct Hrun as [inp _|inp _ _|inp ranked _ _ _ Hr];
    [repeat split; intros; discriminate | repeat split; intros; discriminate |].
  simpl. unfold allocate_trace, allocate.
  split; [|split].
  - intros s. rewrite loop_trace_head. intros [= <-]. reflexivity.
  - intros k a b Ha Hb.
    pose proof (loop_trace_step _ _ _ _ _ Ha Hb) as Hstep. split; [exact Hstep|].
    apply loop_body_pool; [|exact Hstep].
    assert (Hinv : Forall (fun s => Forall (fun t => 0 <= demand t) (tasks s))
                     (loop_trace (length ranked) (loop_init ranked (in_totalBandwidth inp)))).
    { apply loop_trace_invariant; [intros; eapply loop_body_demands; eassumption|].
      simpl. apply (Ranked_Forall _ _ _ Hr), read_task_demand, Hd. }
    rewrite Forall_forall in Hinv. eapply Hinv, list_elem_of_lookup_2, Ha.
  - apply loop_trace_last.
Qed.

Lemma pool_non_increasing_witness :
  map totalBandwidth (trace (main_stable example_input)) = [100; 50; 0] /\
  (forall k a b, trace (main_stable example_input) !! k = Some a ->
     trace (main_stable example_input) !! S k = Some b ->
     loop_body a = Some b /\ totalBandwidth b <= totalBandwidth a).
Proof.
  split; [vm_compute; reflexivity|].
  apply (pool_non_increasing example_input).
  - apply main_stable_run. reflexivity.
  - repeat constructor; simpl; lra.
Defined.

(** ** The fields the allocation pass leaves alone *)

(** C9: in every run, the array that reaches the allocation loop is a
    permutation of the entries as they were read, and after the loop
    (and at the head of each of its iterations) every entry has the
    name, demand, priority and ratio it had before the loop at the same
    index: only [allocated] is written. *)
Theorem allocation_frame (inp : Input) (out : Outcome) :
  main inp out ->
  (tasks (final out) = [] /\ trace out = []) \/
  exists ranked,
    Permutation (map read_task (in_tasks inp)) ranked /\
    Forall2 same_content ranked (tasks (final out)) /\
    Forall (fun s => Forall2 same_content ranked (tasks s)) (trace out).
Proof.
  intros Hrun. destruct Hrun as [inp _|inp _ _|inp ranked _ _ _ Hr]; [now left | now left |].
  right. exists ranked. split; [apply Hr|]. split.
  - destruct (finish_serve inp ranked) as (-> & _ & _). apply serve_same_content.
  - simpl. apply loop_trace_invariant; [|apply same_content_all].
    intros a b Ha. unfold loop_body.
    destruct (tasks a !! idx a) as [t|] eqn:Et; [|discriminate].
    assert (Hi : forall x, same_content t x -> Forall2 same_content ranked (<[idx a := x]> (tasks a))).
    { intros x (Hx1 & Hx2 & Hx3 & Hx4).
      apply Forall2_same_length_lookup_2.
      - rewrite length_insert. eapply Forall2_length, Ha.
      - intros i u w Hu Hw. destruct (decide (idx a = i)) as [<-|Hne].
        + rewrite list_lookup_insert_eq in Hw by (eapply lookup_lt_Some, Et).
          injection Hw as <-.
          destruct (Forall2_lookup_lr _ _ _ _ _ _ Ha Hu Et) as (H1 & H2 & H3 & H4).
          repeat split; congruence.
        + rewrite list_lookup_insert_ne in Hw by assumption.
          apply (Forall2_lookup_lr _ _ _ _ _ _ Ha Hu Hw). }
    destruct (Qle_bool (totalBandwidth a) 0); [discriminate|].
    destruct (Qle_bool _ _); intros [= <-]; simpl; apply Hi, same_content_set_allocated.
Qed.

Lemma allocation_frame_witness :
  (tasks (final (main_stable example_input)) = [] /\ trace (main_stable example_input) = []) \/
  exists ranked,
    Permutation (map read_task (in_tasks example_input)) ranked /\
    Forall2 same_content ranked (tasks (final (main_stable example_input))) /\
    Forall (fun s => Forall2 same_content ranked (tasks s))
           (trace (main_stable example_input)).
Proof.
  apply (allocation_frame example_input). apply main_stable_run. reflexivity.
Defined.

(** ** A capacity that is not positive *)

(** C10: in every run with a total capacity [<= 0], negative values
    included, no iteration of the allocation loop is executed: every
    entry keeps [allocated = 0], the value achieved is 0, the pool is
    the capacity entered, and the bandwidth used that is reported is 0. *)
Theorem non_positive_capacity (inp : Input) (out : Outcome) :
  main inp out ->
  in_totalBandwidth inp <= 0 ->
  iterations (trace out) = 0%nat /\
  Forall (fun t => allocated t = 0) (tasks (final out)) /\
  totalPriorityValue (final out) = 0 /\
  totalBandwidth (final out) = in_totalBandwidth inp /\
  (forall s, summary out = Some s -> bandwidth_used s == 0).
Proof.
  intros Hrun Hc. destruct Hrun as [inp _|inp _ _|inp ranked _ _ _ Hr];
    [simpl; repeat split; [constructor | discriminate]
    |simpl; repeat split; [constructor | discriminate] |].
  assert (Hstuck : loop_body (loop_init ranked (in_totalBandwidth inp)) = None)
    by (apply loop_body_empty_pool; exact Hc).
  simpl. unfold allocate_trace, allocate. rewrite loop_exec_stuck by exact Hstuck.
  split; [|split; [|split; [|split]]].
  - destruct (length ranked); simpl; [reflexivity | rewrite Hstuck; reflexivity].
  - simpl. apply (Ranked_Forall _ _ _ Hr), read_task_allocated.
  - reflexivity.
  - reflexivity.
  - intros s [= <-]. simpl. lra.
Qed.

Lemma non_positive_capacity_witness :
  iterations (trace (main_stable negative_capacity_input)) = 0%nat /\
  Forall (fun t => allocated t = 0) (tasks (final (main_stable negative_capacity_input))) /\
  totalPriorityValue (final (main_stable negative_capacity_input)) = 0 /\
  totalBandwidth (final (main_stable negative_capacity_input)) = -5 /\
  (forall s, summary (main_stable negative_capacity_input) = Some s -> bandwidth_used s == 0).
Proof.
  apply (non_positive_capacity negative_capacity_input).
  - apply main_stable_run. reflexivity.
  - simpl. lra.
Defined.

(** ** Optimality *)




(** ** Entries that demand nothing *)




(** ** Ranking *)

(** C5, as the code has it: every result of the ranking step is a
    permutation of the array (no entry added or removed) whose ratios
    descend; any descending permutation of the array is a possible
    result, so entries of equal ratio may come in any order; all
    possible results carry the same ratios index by index, the one that
    keeps entries of equal ratio in their order of entry among them. *)
Theorem rank_descending_permutation (base result : list Task) :
  Ranked base result ->
  Permutation base result /\
  length result = length base /\
  descending result /\
  (forall other, Ranked base other <-> Permutation base other /\ descending other) /\
  (forall other, Ranked base other -> same_ratios result other) /\
  (Ranked base (qsort_stable compareTasks base) /\
   stable_ranking base (qsort_stable compareTasks base)).
Proof.
  intros Hr. split; [apply Hr|]. split; [now apply Ranked_length|].
  split; [now apply Ranked_iff in Hr|]. split; [|split].
  - intros other. apply Ranked_iff.
  - intros other. now apply Ranked_same_ratios.
  - split; [apply Ranked_stable | apply qsort_stable_is_stable].
Qed.

Lemma rank_descending_permutation_witness :
  Permutation (map read_task (in_tasks example_input))
              (qsort_stable compareTasks (map read_task (in_tasks example_input))) /\
  map name (qsort_stable compareTasks (map read_task (in_tasks example_input)))
  = ["B"; "A"; "C"]%string /\
  descending (qsort_stable compareTasks (map read_task (in_tasks example_input))).
Proof.
  destruct (rank_descending_permutation
              (map read_task (in_tasks example_input))
              (qsort_stable compareTasks (map read_task (in_tasks example_input))))
    as (H1 & _ & H3 & _).
  - apply Ranked_stable.
  - split; [exact H1|]. split; [reflexivity | exact H3].
Defined.

(** C5 as stated fails on ties: for the tasks A (demand 60, priority
    60) and C (demand 30, priority 30), both of ratio 1, the array C, A
    is a result of the ranking step, and a run of [main] reports it,
    though it does not keep the order A, C of entry. *)
Lemma ranking_not_stable :
  Ranked (map read_task (in_tasks tie_input)) (reverse (map read_task (in_tasks tie_input))) /\
  ~ stable_ranking (map read_task (in_tasks tie_input))
                   (reverse (map read_task (in_tasks tie_input))) /\
  main tie_input (finish tie_input (reverse (map read_task (in_tasks tie_input)))) /\
  map row_name (table (finish tie_input (reverse (map read_task (in_tasks tie_input)))))
  = ["C"; "A"]%string.
Proof.
  assert (Hr : Ranked (map read_task (in_tasks tie_input))
                      (reverse (map read_task (in_tasks tie_input)))).
  { split; [apply perm_swap|].
    repeat constructor; vm_compute; discriminate. }
  split; [exact Hr|]. split; [|split].
  - intros Hst. specialize (Hst 1). vm_compute in Hst. discriminate Hst.
  - apply main_allocated; [simpl; lia | reflexivity | reflexivity | exact Hr].
  - reflexivity.
Qed.

(** ** Ranking again *)

(** C6, as the code has it: ranking a ranked array again gives an array
    with the same ratios index by index; the ranked array itself is a
    possible result, and it is the result of [qsort_stable]; and when
    no two entries have the same ratio it is the only result. *)
Theorem rerank_same_ratios (base ranked reranked : list Task) :
  Ranked base ranked ->
  Ranked ranked reranked ->
  same_ratios ranked reranked /\
  Ranked ranked ranked /\
  qsort_stable compareTasks ranked = ranked /\
  ((forall a b, a ∈ base -> b ∈ base -> ratio a == ratio b -> a = b) ->
   reranked = ranked).
Proof.
  intros H1 H2.
  assert (Hself : Ranked ranked ranked) by (split; [reflexivity | apply H1]).
  split; [now apply (Ranked_same_ratios ranked)|]. split; [exact Hself|].
  split; [apply qsort_stable_sorted, H1|].
  intros Hinj. symmetry. apply (same_ratios_eq base).
  - exact Hinj.
  - intros a Ha. destruct H1 as [Hp _]. now rewrite Hp.
  - intros b Hb. destruct H1 as [Hp _], H2 as [Hp' _]. now rewrite Hp, Hp'.
  - now apply (Ranked_same_ratios ranked).
Qed.

Lemma rerank_same_ratios_witness :
  qsort_stable compareTasks
    (qsort_stable compareTasks (map read_task (in_tasks example_input)))
  = qsort_stable compareTasks (map read_task (in_tasks example_input)) /\
  same_ratios (qsort_stable compareTasks (map read_task (in_tasks example_input)))
              (qsort_stable compareTasks
                 (qsort_stable compareTasks (map read_task (in_tasks example_input)))).
Proof.
  destruct (rerank_same_ratios
              (map read_task (in_tasks example_input))
              (qsort_stable compareTasks (map read_task (in_tasks example_input)))
              (qsort_stable compareTasks
                 (qsort_stable compareTasks (map read_task (in_tasks example_input)))))
    as (H1 & _ & H3 & _).
  - apply Ranked_stable.
  - apply Ranked_stable.
  - split; [exact H3 | exact H1].
Defined.

(** C6 as stated fails on ties: the array A, C of two tasks of ratio 1
    is ranked, and ranking it again may give C, A. *)
Lemma reranking_changes_order :
  Ranked (map read_task (in_tasks tie_input)) (map read_task (in_tasks tie_input)) /\
  Ranked (map read_task (in_tasks tie_input)) (reverse (map read_task (in_tasks tie_input))) /\
  reverse (map read_task (in_tasks tie_input)) <> map read_task (in_tasks tie_input).
Proof.
  split; [|split].
  - split; [reflexivity|]. repeat constructor; vm_compute; discriminate.
  - split; [apply perm_swap|]. repeat constructor; vm_compute; discriminate.
  - vm_compute. discriminate.
Qed.

(** * Further properties of the program *)

(** ** The comparison function and the ratio *)

(** X1: [compareTasks] is a comparison function as [qsort] needs one.
    It returns -1, 0 or 1; -1 exactly when the first task has the larger
    ratio, 1 exactly when it has the smaller one, 0 exactly when the
    ratios are equal; swapping the arguments negates the result; and
    "not after" is transitive. *)
Theorem compareTasks_comparator (a b c : Task) :
  (compareTasks a b = (-1)%Z <-> ratio b < ratio a) /\
  (compareTasks a b = 1%Z <-> ratio a < ratio b) /\
  (compareTasks a b = 0%Z <-> ratio a == ratio b) /\
  (compareTasks a b = (-1)%Z \/ compareTasks a b = 0%Z \/ compareTasks a b = 1%Z) /\
  compareTasks b a = (- compareTasks a b)%Z /\
  ((compareTasks a b <= 0)%Z -> (compareTasks b c <= 0)%Z -> (compareTasks a c <= 0)%Z).
Proof.
  repeat split; try apply compareTasks_trans;
    unfold compareTasks; case_Q; intros; try lia; try lra; auto.
Qed.

Lemma compareTasks_comparator_witness :
  compareTasks (read_task (mkTaskInput "B" 50 100)) (read_task (mkTaskInput "C" 30 30))
  = (-1)%Z /\
  (compareTasks (read_task (mkTaskInput "B" 50 100)) (read_task (mkTaskInput "C" 30 30))
   <= 0)%Z.
Proof.
  destruct (compareTasks_comparator
              (read_task (mkTaskInput "B" 50 100)) (read_task (mkTaskInput "A" 60 60))
              (read_task (mkTaskInput "C" 30 30))) as (_ & _ & _ & _ & _ & Htrans).
  split; [reflexivity|]. apply Htrans; vm_compute; discriminate.
Defined.



(** ** The report *)

(** The entries a run leaves behind, against the array that was ranked. *)
Lemma finish_same_content (inp : Input) (ranked : list Task) :
  Forall2 same_content ranked (tasks (final (finish inp ranked))).
Proof.
  destruct (finish_serve inp ranked) as (-> & _ & _). apply serve_same_content.
Qed.

Lemma Ranked_allocated_zero (l : list TaskInput) (ranked : list Task) :
  Ranked (map read_task l) ranked -> Forall (fun t => allocated t == 0) ranked.
Proof.
  intros Hr. apply (Ranked_Forall _ _ _ Hr).
  eapply Forall_impl; [apply read_task_allocated|]. intros t ->. reflexivity.
Qed.

(** What was handed out is what left the pool, whatever the demands. *)
Lemma serve_used (ahead : list Task) (b v : Q) :
  Forall (fun t => allocated t == 0) ahead ->
  sum_allocated (serve ahead b v).1.1 == b - (serve ahead b v).1.2.
Proof.
  revert b v. induction ahead as [|t rest IH]; intros b v Ha.
  - unfold sum_allocated. simpl. lra.
  - inversion Ha as [|? ? Hat Harest]; subst.
    serve_step t rest b v.
    + simpl. rewrite (sum_allocated_zero _ Ha). lra.
    + specialize (IH (b - demand t) (v + inject_Z (priority t)) Harest).
      destruct (serve rest _ _) as [[rest' b'] v']. simpl in *.
      rewrite sum_allocated_cons. simpl. lra.
    + simpl. rewrite sum_allocated_cons. simpl.
      rewrite (sum_allocated_zero _ Harest). lra.
Qed.





Lemma same_content_rows (initialBandwidth : Q) (ts ts' : list Task) :
  Forall2 same_content ts ts' ->
  map row_entry (map (table_row initialBandwidth) ts')
  = map (fun t => (name t, priority t, demand t)) ts.
Proof.
  induction 1 as [|t t' ts ts' (H1 & H2 & H3 & _) _ IH]; [reflexivity|].
  simpl. rewrite IH. unfold row_entry. simpl. now rewrite H1, H2, H3.
Qed.

(** X5: whenever the report is printed, the table has one row per task
    entered, and its rows show, in some order, exactly the names,
    priorities and demands that were entered; row [i] shows the
    allocated amount of entry [i] of the array. *)
Theorem table_lists_every_task (inp : Input) (out : Outcome) :
  main inp out -> summary out <> None ->
  Permutation (map input_entry (in_tasks inp)) (map row_entry (table out)) /\
  Z.of_nat (length (table out)) = in_numTasks inp /\
  map row_allocated (table out) = map allocated (tasks (final out)).
Proof.
  intros Hrun Hs. destruct Hrun as [inp _|inp _ _|inp ranked _ _ Hlen Hr];
    [now contradict Hs | now contradict Hs |].
  pose proof (finish_same_content inp ranked) as Hsame.
  change (table (finish inp ranked))
    with (map (table_row (in_totalBandwidth inp)) (tasks (final (finish inp ranked)))).
  split; [|split].
  - rewrite (same_content_rows _ _ _ Hsame). destruct Hr as [Hp _].
    rewrite <- (Permutation_map (fun t => (name t, priority t, demand t)) Hp).
    rewrite map_map. reflexivity.
  - rewrite length_map, <- (Forall2_length _ _ _ Hsame).
    rewrite (Ranked_length _ _ Hr), length_map. exact Hlen.
  - rewrite map_map. reflexivity.
Qed.

Lemma table_lists_every_task_witness :
  map row_entry (table (main_stable example_input))
  = [("B", 100%Z, 50); ("A", 60%Z, 60); ("C", 30%Z, 30)]%string /\
  Permutation (map input_entry (in_tasks example_input))
              (map row_entry (table (main_stable example_input))).
Proof.
  split; [reflexivity|].
  apply (table_lists_every_task example_input (main_stable example_input)).
  - apply main_stable_run. reflexivity.
  - discriminate.
Defined.

(** ** What a run with non-negative demands leaves behind *)

Lemma Qsum_member_le (l : list Q) (x : Q) :
  Forall (fun y => 0 <= y) l -> x ∈ l -> x <= Qsum l.
Proof.
  induction 1 as [|y l Hy Hl IH]; intros Hx; [inversion Hx|].
  assert (0 <= Qsum l).
  { clear IH Hx. induction Hl as [|z l Hz _ IH]; [apply Qle_refl|]. rewrite Qsum_cons. lra. }
  rewrite Qsum_cons. apply elem_of_cons in Hx as [->|Hx]; [lra|].
  specialize (IH Hx). lra.
Qed.

Lemma finish_conservation (inp : Input) (ranked : list Task) :
  Ranked (map read_task (in_tasks inp)) ranked ->
  Forall (fun e => 0 <= in_demand e) (in_tasks inp) ->
  0 <= in_totalBandwidth inp ->
  Forall (fun t => 0 <= allocated t <= demand t) (tasks (final (finish inp ranked))) /\
  0 <= totalBandwidth (final (finish inp ranked)) /\
  sum_allocated (tasks (final (finish inp ranked)))
  == in_totalBandwidth inp - totalBandwidth (final (finish inp ranked)) /\
  (0 < totalBandwidth (final (finish inp ranked)) ->
   sum_demand ranked == in_totalBandwidth inp - totalBandwidth (final (finish inp ranked))) /\
  sum_allocated (tasks (final (finish inp ranked))) <= sum_demand ranked /\
  sum_demand (tasks (final (finish inp ranked))) = sum_demand ranked /\
  sum_demand ranked == Qsum (map in_demand (in_tasks inp)).
Proof.
  intros Hr Hd Hc.
  destruct (finish_serve inp ranked) as (Ht & Hb & _). rewrite Ht, Hb. clear Ht Hb.
  set (b := in_totalBandwidth inp) in *.
  pose proof (Ranked_Forall _ _ _ Hr (read_task_demand _ Hd)) as Hd'.
  pose proof (Ranked_allocated_zero _ _ Hr) as Ha.
  assert (Hin : Forall (fun t => 0 <= allocated t <= demand t) ranked).
  { rewrite Forall_forall in Ha, Hd' |- *. intros t Ht.
    specialize (Ha t Ht). specialize (Hd' t Ht). simpl in *. lra. }
  destruct (serve_conservation ranked b 0 Hd' Ha Hc) as (H1 & H2 & H3).
  split; [now apply serve_bounds|]. split; [exact H1|]. split; [exact H2|].
  split; [exact H3|]. split; [now apply serve_allocated_le_demand|]. split.
  - unfold sum_demand. now rewrite (same_content_demands _ _ (serve_same_content ranked b 0)).
  - unfold sum_demand. destruct Hr as [Hp _].
    rewrite <- (Qsum_Permutation _ _ (Permutation_map demand Hp)).
    rewrite map_map. reflexivity.
Qed.

Lemma sum_share_rows (initialBandwidth : Q) (ts : list Task) :
  0 < initialBandwidth ->
  sum_share (map (table_row initialBandwidth) ts)
  == sum_allocated ts / initialBandwidth * 100.
Proof.
  intros Hb. pose proof Hb as Hb'. apply Qltb_true in Hb'.
  induction ts as [|t ts IH].
  - unfold sum_share, sum_allocated. simpl. field. lra.
  - change (sum_share (map (table_row initialBandwidth) (t :: ts)))
      with (percentageShare (table_row initialBandwidth t)
            + sum_share (map (table_row initialBandwidth) ts)).
    rewrite IH, sum_allocated_cons. simpl. rewrite Hb'. field. lra.
Qed.

Lemma share_le_100 (a c : Q) : 0 < c -> a / c * 100 <= 100 <-> a <= c.
Proof.
  intros Hc. split; intros H.
  - destruct (Qlt_le_dec c a) as [Hlt|]; [|assumption].
    assert (1 < a / c) by (apply Qlt_shift_div_l; lra). lra.
  - assert (a / c <= 1) by (apply Qle_shift_div_r; lra). lra.
Qed.

Lemma share_eq_100 (a c : Q) : 0 < c -> a / c * 100 == 100 <-> a == c.
Proof.
  intros Hc. split; intros H.
  - assert (H1 : a / c == 1) by lra.
    assert (H2 : a == a / c * c) by (field; lra). rewrite H2, H1. ring.
  - rewrite H. field. lra.
Qed.



(** ** The order of service *)

(** Nothing reaches an entry unless the entries before it got all they
    asked for. *)
Lemma serve_rank_order (ahead : list Task) (b v : Q) (i j : nat) (a c : Task) :
  Forall (fun t => allocated t == 0) ahead ->
  (i < j)%nat ->
  (serve ahead b v).1.1 !! i = Some a -> (serve ahead b v).1.1 !! j = Some c ->
  ~ allocated c == 0 -> allocated a = demand a.
Proof.
  revert b v i j. induction ahead as [|t rest IH]; intros b v i j Hz Hij Ha Hc Hne.
  - discriminate.
  - inversion Hz as [|? ? Hzt Hzrest]; subst.
    assert (Hrest : forall l, Forall (fun t => allocated t == 0) l ->
                              forall k, l !! k = Some c -> False).
    { intros l Hl k Hk. apply Hne. rewrite Forall_forall in Hl.
      eapply Hl, list_elem_of_lookup_2, Hk. }
    destruct j as [|j]; [lia|].
    revert Ha Hc. serve_step t rest b v.
    + simpl. intros _ Hc. destruct (Hrest rest Hzrest j Hc).
    + specialize (IH (b - demand t) (v + inject_Z (priority t))).
      destruct (serve rest _ _) as [[rest' b'] v']. simpl in *.
      intros Ha Hc. destruct i as [|i].
      * injection Ha as <-. reflexivity.
      * apply (IH i j Hzrest ltac:(lia) Ha Hc Hne).
    + simpl. intros _ Hc. destruct (Hrest rest Hzrest j Hc).
Qed.

(** X7: in every run, whatever the inputs, an entry holds a non-zero
    allocated amount only if every entry ranked before it holds exactly
    its demand; so at most one entry is served in part. *)
Theorem served_in_rank_order (inp : Input) (out : Outcome) :
  main inp out ->
  (forall i j a c, (i < j)%nat ->
     tasks (final out) !! i = Some a -> tasks (final out) !! j = Some c ->
     ~ allocated c == 0 -> allocated a = demand a) /\
  (forall i j a c,
     tasks (final out) !! i = Some a -> tasks (final out) !! j = Some c ->
     partially_served a -> partially_served c -> i = j).
Proof.
  intros Hrun.
  assert (Horder : forall i j a c, (i < j)%nat ->
            tasks (final out) !! i = Some a -> tasks (final out) !! j = Some c ->
            ~ allocated c == 0 -> allocated a = demand a).
  { apply main_inv in Hrun as [[_ ->]|[(_ & _ & ->)|(_ & _ & ranked & Hr & ->)]];
      [intros; discriminate | intros; discriminate |].
    destruct (finish_serve inp ranked) as (-> & _ & _).
    intros i j a c. apply serve_rank_order. now apply (Ranked_allocated_zero (in_tasks inp)). }
  split; [exact Horder|].
  intros i j a c Ha Hc [Ha1 Ha2] [Hc1 Hc2].
  destruct (Nat.lt_trichotomy i j) as [Hlt|[Heq|Hgt]]; [|exact Heq|].
  - destruct (Ha2 (Horder i j a c Hlt Ha Hc Hc1)).
  - destruct (Hc2 (Horder j i c a Hgt Hc Ha Ha1)).
Qed.

Lemma served_in_rank_order_witness :
  allocated (mkTask "B" 50 100 (100 # 50) 50) = demand (mkTask "B" 50 100 (100 # 50) 50).
Proof.
  destruct (served_in_rank_order example_input (main_stable example_input)) as [H _].
  - apply main_stable_run. reflexivity.
  - apply (H 0%nat 1%nat _ (mkTask "A" 60 60 (60 # 60) 50)).
    + lia.
    + reflexivity.
    + reflexivity.
    + simpl. lra.
Defined.

(** ** The value achieved *)

Lemma loop_body_priorities (a b : LoopState) :
  Forall (fun t => (0 <= priority t)%Z) (tasks a) -> loop_body a = Some b ->
  Forall (fun t => (0 <= priority t)%Z) (tasks b).
Proof.
  intros Ha. unfold loop_body. destruct (tasks a !! idx a) as [t|] eqn:Et; [|discriminate].
  assert (Ht : (0 <= priority t)%Z)
    by (rewrite Forall_forall in Ha; eapply Ha, list_elem_of_lookup_2, Et).
  destruct (Qle_bool (totalBandwidth a) 0); [discriminate|].
  destruct (Qle_bool _ _); intros [= <-]; simpl; apply Forall_insert; assumption.
Qed.

Lemma fraction_bounds (b d : Q) : 0 < b -> b < d -> 0 <= b / d <= 1.
Proof.
  intros Hb Hd. split; [apply Qle_shift_div_l; lra | apply Qle_shift_div_r; lra].
Qed.

Lemma loop_body_value (a b : LoopState) :
  Forall (fun t => (0 <= priority t)%Z) (tasks a) -> loop_body a = Some b ->
  totalPriorityValue a <= totalPriorityValue b.
Proof.
  intros Ha. unfold loop_body. destruct (tasks a !! idx a) as [t|] eqn:Et; [|discriminate].
  assert (Ht : 0 <= inject_Z (priority t)).
  { apply inject_Z_nonneg. rewrite Forall_forall in Ha. eapply Ha, list_elem_of_lookup_2, Et. }
  destruct (Qle_bool (totalBandwidth a) 0) eqn:Eb; [discriminate|].
  apply Qle_bool_false in Eb.
  destruct (Qle_bool _ _) eqn:Ed; intros [= <-]; simpl; [lra|].
  apply Qle_bool_false in Ed.
  destruct (fraction_bounds _ _ Eb Ed) as [Hf _].
  pose proof (Qmult_le_0_compat _ _ Hf Ht). lra.
Qed.

Lemma sum_priority_cons (t : Task) (ts : list Task) :
  sum_priority (t :: ts) = inject_Z (priority t) + sum_priority ts.
Proof. reflexivity. Qed.

Lemma sum_priority_nonneg (ts : list Task) :
  Forall (fun t => (0 <= priority t)%Z) ts -> 0 <= sum_priority ts.
Proof.
  induction 1 as [|t ts Ht _ IH]; [apply Qle_refl|].
  rewrite sum_priority_cons. apply inject_Z_nonneg in Ht. lra.
Qed.

Lemma serve_value_bounds (ahead : list Task) (b v : Q) :
  Forall (fun t => (0 <= priority t)%Z) ahead ->
  v <= (serve ahead b v).2 /\ (serve ahead b v).2 <= v + sum_priority ahead.
Proof.
  revert b v. induction ahead as [|t rest IH]; intros b v Hp.
  - unfold sum_priority. simpl. lra.
  - inversion Hp as [|? ? Hpt Hprest]; subst.
    pose proof (sum_priority_nonneg _ Hprest) as Hs.
    pose proof (inject_Z_nonneg _ Hpt) as Ht.
    rewrite sum_priority_cons. serve_step t rest b v.
    + simpl. lra.
    + specialize (IH (b - demand t) (v + inject_Z (priority t)) Hprest).
      destruct (serve rest _ _) as [[rest' b'] v']. simpl in *. lra.
    + simpl. destruct (fraction_bounds _ _ Eb Ed) as [Hf0 Hf1].
      pose proof (Qmult_le_0_compat _ _ Hf0 Ht).
      assert (b / demand t * inject_Z (priority t) <= 1 * inject_Z (priority t))
        by (apply Qmult_le_compat_r; assumption).
      lra.
Qed.

Lemma same_content_priorities (ts ts' : list Task) :
  Forall2 same_content ts ts' -> sum_priority ts' = sum_priority ts.
Proof.
  induction 1 as [|t t' ts ts' (_ & _ & Hp & _) _ IH]; [reflexivity|].
  rewrite !sum_priority_cons, Hp, IH. reflexivity.
Qed.

Lemma sum_priority_Permutation (l : list TaskInput) (ranked : list Task) :
  Ranked (map read_task l) ranked ->
  sum_priority ranked == Qsum (map (fun e => inject_Z (in_priority e)) l).
Proof.
  intros [Hp _]. unfold sum_priority.
  rewrite <- (Qsum_Permutation _ _ (Permutation_map (fun t => inject_Z (priority t)) Hp)).
  rewrite map_map. reflexivity.
Qed.



(** ** Leaving the loop *)

Lemma loop_trace_length (fuel : nat) (s : LoopState) :
  (0 < length (loop_trace fuel s))%nat.
Proof. destruct fuel; simpl; lia. Qed.

Lemma loop_exec_iterations (fuel : nat) (s : LoopState) :
  idx (loop_exec fuel s) = (idx s + iterations (loop_trace fuel s))%nat.
Proof.
  revert s. induction fuel as [|fuel IH]; intros s; [unfold iterations; simpl; lia|].
  simpl. destruct (loop_body s) as [s'|] eqn:E; [|unfold iterations; simpl; lia].
  rewrite IH, (loop_body_idx _ _ E). unfold iterations. simpl.
  pose proof (loop_trace_length fuel s'). lia.
Qed.

Lemma loop_exec_length (fuel : nat) (s : LoopState) :
  length (tasks (loop_exec fuel s)) = length (tasks s).
Proof.
  revert s. induction fuel as [|fuel IH]; intros s; [reflexivity|].
  simpl. destruct (loop_body s) as [s'|] eqn:E; [|reflexivity].
  rewrite IH. now apply loop_body_length.
Qed.

Lemma loop_exec_in_range (fuel : nat) (s : LoopState) :
  (idx s <= length (tasks s))%nat ->
  (idx (loop_exec fuel s) <= length (tasks s))%nat.
Proof.
  revert s. induction fuel as [|fuel IH]; intros s Hs; [exact Hs|].
  simpl. destruct (loop_body s) as [s'|] eqn:E; [|exact Hs].
  rewrite <- (loop_body_length _ _ E). apply IH.
  rewrite (loop_body_idx _ _ E), (loop_body_length _ _ E).
  now apply loop_body_in_range in E.
Qed.

(** The loop writes at its index only: the entries from the index at
    which it is left are as they were. *)
Lemma loop_exec_ahead (fuel : nat) (s : LoopState) (j : nat) :
  (idx (loop_exec fuel s) <= j)%nat ->
  tasks (loop_exec fuel s) !! j = tasks s !! j.
Proof.
  revert s. induction fuel as [|fuel IH]; intros s Hj; [reflexivity|].
  simpl in Hj |- *. destruct (loop_body s) as [s'|] eqn:E; [|reflexivity].
  rewrite (IH s' Hj).
  pose proof (loop_exec_iterations fuel s') as Hi.
  rewrite (loop_body_idx _ _ E) in Hi.
  revert E. unfold loop_body. destruct (tasks s !! idx s); [|discriminate].
  destruct (Qle_bool (totalBandwidth s) 0); [discriminate|].
  destruct (Qle_bool _ _); intros [= <-]; simpl; apply list_lookup_insert_ne; lia.
Qed.

Lemma allocate_exit (ranked : list Task) (bandwidth : Q) :
  iterations (allocate_trace ranked bandwidth) = idx (allocate ranked bandwidth) /\
  length (tasks (allocate ranked bandwidth)) = length ranked /\
  (idx (allocate ranked bandwidth) <= length ranked)%nat /\
  (idx (allocate ranked bandwidth) = length ranked \/
   totalBandwidth (allocate ranked bandwidth) <= 0).
Proof.
  pose proof (allocate_halts ranked bandwidth) as Hhalt.
  unfold allocate, allocate_trace in *.
  set (s0 := loop_init ranked bandwidth) in *.
  pose proof (loop_exec_iterations (length ranked) s0) as Hit. simpl in Hit.
  pose proof (loop_exec_in_range (length ranked) s0 ltac:(simpl; lia)) as Hrange.
  pose proof (loop_exec_length (length ranked) s0) as Hlen. simpl in Hrange, Hlen.
  split; [now rewrite Hit|]. split; [exact Hlen|]. split; [exact Hrange|].
  revert Hhalt. unfold loop_body.
  destruct (tasks _ !! idx _) as [t|] eqn:E.
  - destruct (Qle_bool _ 0) eqn:Eb; [intros _; right; now apply Qle_bool_iff|].
    destruct (Qle_bool (demand t) _); intros H; discriminate H.
  - intros _. left. apply lookup_ge_None_1 in E. rewrite Hlen in E. lia.
Qed.

(** X9: how the allocation loop is left.  In every run the loop ends
    in a state from which it takes no further step; the number of
    iterations executed is the final value of [i] and at most the
    number of entries; the loop is left either with all entries visited
    or with a pool [<= 0]; and the entries from index [i] on were never
    written: they hold [allocated = 0]. *)
Theorem loop_exit (inp : Input) (out : Outcome) :
  main inp out ->
  loop_body (final out) = None /\
  iterations (trace out) = idx (final out) /\
  (idx (final out) <= length (tasks (final out)))%nat /\
  (idx (final out) = length (tasks (final out)) \/ totalBandwidth (final out) <= 0) /\
  (forall j t, (idx (final out) <= j)%nat -> tasks (final out) !! j = Some t ->
               allocated t = 0).
Proof.
  intros Hrun.
  apply main_inv in Hrun as [[_ ->]|[(_ & _ & ->)|(_ & _ & ranked & Hr & ->)]].
  - simpl. repeat split; auto. intros; discriminate.
  - simpl. repeat split; auto. intros; discriminate.
  - change (final (finish inp ranked)) with (allocate ranked (in_totalBandwidth inp)).
    change (trace (finish inp ranked)) with (allocate_trace ranked (in_totalBandwidth inp)).
    destruct (allocate_exit ranked (in_totalBandwidth inp)) as (H1 & H2 & H3 & H4).
    split; [apply allocate_halts|]. split; [exact H1|]. rewrite H2.
    split; [exact H3|]. split; [exact H4|].
    intros j t Hj Ht. unfold allocate in Hj, Ht.
    rewrite (loop_exec_ahead _ _ _ Hj) in Ht. simpl in Ht.
    pose proof (Ranked_Forall _ _ _ Hr (read_task_allocated _)) as Ha.
    rewrite Forall_forall in Ha. eapply Ha, list_elem_of_lookup_2, Ht.
Qed.

Lemma loop_exit_witness :
  iterations (trace (main_stable example_input)) = 2%nat /\
  allocated (mkTask "C" 30 30 (30 # 30) 0) = 0.
Proof.
  destruct (loop_exit example_input (main_stable example_input)) as (_ & _ & _ & _ & H).
  - apply main_stable_run. reflexivity.
  - split; [reflexivity|]. apply (H 2%nat); [simpl; lia | reflexivity].
Defined.

(** ** Demands below and above the capacity *)

Lemma pointwise_sum_eq (ts : list Task) :
  Forall (fun t => 0 <= allocated t <= demand t) ts ->
  sum_allocated ts == sum_demand ts ->
  Forall (fun t => allocated t == demand t) ts.
Proof.
  induction 1 as [|t ts Ht Hts IH]; intros Hsum; [constructor|].
  rewrite sum_allocated_cons, sum_demand_cons in Hsum.
  assert (Hle : sum_allocated ts <= sum_demand ts).
  { clear IH Hsum. induction Hts as [|u us Hu _ IH]; [apply Qle_refl|].
    rewrite sum_allocated_cons, sum_demand_cons. lra. }
  constructor; [lra | apply IH; lra].
Qed.

Lemma pointwise_eq_sum (ts : list Task) :
  Forall (fun t => allocated t == demand t) ts -> sum_allocated ts == sum_demand ts.
Proof.
  induction 1 as [|t ts Ht _ IH]; [reflexivity|].
  rewrite sum_allocated_cons, sum_demand_cons, Ht, IH. reflexivity.
Qed.



Lemma serve_all (ahead : list Task) (b v : Q) :
  Forall (fun t => 0 <= demand t) ahead ->
  sum_demand ahead < b ->
  (serve ahead b v).1.1 = map (fun t => set_allocated t (demand t)) ahead /\
  (serve ahead b v).1.2 == b - sum_demand ahead /\
  (serve ahead b v).2 == v + sum_priority ahead.
Proof.
  revert b v. induction ahead as [|t rest IH]; intros b v Hd Hb.
  - unfold sum_demand, sum_priority in *. simpl in *. repeat split; lra.
  - inversion Hd as [|? ? Hdt Hdrest]; subst.
    pose proof (sum_demand_nonneg _ Hdrest) as Hs.
    rewrite sum_demand_cons in Hb |- *. rewrite sum_priority_cons.
    simpl serve.
    assert (E1 : Qle_bool b 0 = false) by (apply Qle_bool_false; lra).
    assert (E2 : Qle_bool (demand t) b = true) by (apply Qle_bool_iff; lra).
    rewrite E1, E2.
    destruct (IH (b - demand t) (v + inject_Z (priority t)) Hdrest ltac:(lra))
      as (H1 & H2 & H3).
    destruct (serve rest _ _) as [[rest' b'] v']. simpl in *.
    split; [now rewrite H1|]. split; lra.
Qed.



(** ** The value achieved and the allocation reported *)

Lemma allocation_value_pos_zero (ts : list Task) :
  Forall (fun t => allocated t == 0) ts ->
  allocation_value_pos ts (map allocated ts) == 0.
Proof.
  induction 1 as [|t ts Ht _ IH]; [reflexivity|].
  simpl map. rewrite allocation_value_pos_cons, IH. unfold credit_pos.
  destruct (Qltb 0 (demand t)) eqn:E; [|lra].
  apply Qltb_true in E. rewrite Ht. field. lra.
Qed.

(** What the loop credits is what the allocation it leaves is worth
    over the demanding entries, and what it credits to the others. *)
Lemma serve_value (ahead : list Task) (b v : Q) :
  Forall (fun t => allocated t == 0) ahead ->
  (serve ahead b v).2
  == v + allocation_value_pos (serve ahead b v).1.1 (map allocated (serve ahead b v).1.1)
     + zero_demand_credit ahead b.
Proof.
  revert b v. induction ahead as [|t rest IH]; intros b v Ha.
  - unfold allocation_value_pos. simpl. lra.
  - inversion Ha as [|? ? Hat Harest]; subst.
    simpl zero_demand_credit. serve_step t rest b v.
    + simpl fst. simpl snd. rewrite (allocation_value_pos_zero _ Ha). lra.
    + specialize (IH (b - demand t) (v + inject_Z (priority t)) Harest).
      destruct (serve rest _ _) as [[rest' b'] v']. simpl in IH |- *.
      rewrite allocation_value_pos_cons. unfold credit_pos at 1. simpl.
      destruct (Qltb 0 (demand t)) eqn:E.
      * apply Qltb_true in E.
        assert (demand t / demand t * inject_Z (priority t) == inject_Z (priority t))
          by (field; lra).
        lra.
      * lra.
    + simpl fst. simpl snd. simpl map. rewrite allocation_value_pos_cons.
      rewrite (allocation_value_pos_zero _ Harest).
      unfold credit_pos. simpl.
      assert (E : Qltb 0 (demand t) = true) by (apply Qltb_true; lra).
      rewrite E. lra.
Qed.

Lemma fraction_value_pos (ts : list Task) :
  Forall (fun t => 0 < demand t) ts ->
  allocation_value_pos ts (map allocated ts) = fraction_value ts.
Proof.
  induction 1 as [|t ts Ht _ IH]; [reflexivity|].
  simpl map. rewrite allocation_value_pos_cons, IH.
  unfold fraction_value, credit_pos. apply Qltb_true in Ht. rewrite Ht. reflexivity.
Qed.





(** ** Rankings that differ on ties *)

Lemma Forall2_Permutation_align {A B : Type} (R : A -> B -> Prop)
    (l1 l2 : list A) (l1' : list B) :
  Permutation l1 l2 -> Forall2 R l1 l1' ->
  exists l2', Permutation l1' l2' /\ Forall2 R l2 l2'.
Proof.
  intros Hp. revert l1'.
  induction Hp as [|x l1 l2 _ IH|x y l|l1 l2 l3 _ IH1 _ IH2]; intros l1' H.
  - inversion H; subst. exists []. split; constructor.
  - inversion H as [|? y ? l1'' Hxy Hrest]; subst.
    destruct (IH _ Hrest) as (l2' & Hp' & H').
    exists (y :: l2'). split; [now constructor | now constructor].
  - inversion H as [|? b ? l' Hyb Hrest]; subst.
    inversion Hrest as [|? a ? l'' Hxa Hrest']; subst.
    exists (a :: b :: l''). split; [apply perm_swap | repeat constructor; assumption].
  - destruct (IH1 _ H) as (l2' & Hp12 & H2).
    destruct (IH2 _ H2) as (l3' & Hp23 & H3).
    exists l3'. split; [now rewrite Hp12 | exact H3].
Qed.

Lemma allocation_value_pos_map (ts : list Task) :
  allocation_value_pos ts (map allocated ts)
  = Qsum (map (fun t => credit_pos t (allocated t)) ts).
Proof.
  induction ts as [|t ts IH]; [reflexivity|].
  simpl map. now rewrite allocation_value_pos_cons, IH.
Qed.

Lemma same_content_within (ts ts' : list Task) :
  Forall2 same_content ts ts' ->
  Forall (fun t => 0 <= allocated t <= demand t) ts' ->
  Forall2 (fun t a => 0 <= a <= demand t) ts (map allocated ts').
Proof.
  induction 1 as [|t t' ts ts' (_ & Hd & _) _ IH]; intros H; [constructor|].
  inversion H as [|? ? Ht Hrest]; subst. simpl. constructor; [|now apply IH].
  rewrite <- Hd. exact Ht.
Qed.

Lemma serve_empty_pool (ahead : list Task) (b v : Q) :
  b <= 0 -> serve ahead b v = (ahead, b, v).
Proof.
  intros Hb. apply Qle_bool_iff in Hb. destruct ahead; simpl; [reflexivity | now rewrite Hb].
Qed.

(** One ranking of the entries, with at least as much in the pool,
    achieves at least what another does. *)
Lemma ranking_value_le (l : list TaskInput) (r1 r2 : list Task) (b1 b2 : Q) :
  Ranked (map read_task l) r1 ->
  Ranked (map read_task l) r2 ->
  Forall (fun e => 0 <= in_demand e) l ->
  Forall (fun e => (0 <= in_priority e)%Z) l ->
  Forall (fun e => 0 < in_demand e ->
                   inject_Z (in_priority e) / in_demand e < SENTINEL) l ->
  0 < b2 -> b2 <= b1 ->
  (serve r2 b2 0).2 <= (serve r1 b1 0).2.
Proof.
  intros Hr1 Hr2 Hd Hp Hsen Hb2 Hb1.
  assert (Hfacts : forall r, Ranked (map read_task l) r ->
            StronglySorted (fun a b => ratio b <= ratio a) r /\
            Forall ratio_ok r /\ Forall (fun t => 0 <= demand t) r /\
            Forall (fun t => (0 <= priority t)%Z) r /\
            Forall (fun t => 0 < demand t -> ratio t < SENTINEL) r /\
            Forall (fun t => allocated t == 0) r).
  { intros r Hr. split; [eapply Ranked_sorted, Hr|].
    split; [apply (Ranked_Forall _ _ _ Hr), read_task_ratio_ok|].
    split; [apply (Ranked_Forall _ _ _ Hr), read_task_demand, Hd|].
    split; [apply (Ranked_Forall _ _ _ Hr), read_task_priority, Hp|].
    split; [|now apply (Ranked_allocated_zero l)].
    apply (Ranked_Forall _ _ _ Hr), Forall_fmap.
    eapply Forall_impl; [exact Hsen|]. intros e He Hde. simpl in *.
    unfold computeRatio. pose proof Hde as Hde'. apply Qltb_true in Hde'.
    rewrite Hde'. now apply He. }
  destruct (Hfacts r1 Hr1) as (Hs1 & Hok1 & Hd1 & Hp1 & Hsen1 & Ha1).
  destruct (Hfacts r2 Hr2) as (Hs2 & Hok2 & Hd2 & Hp2 & Hsen2 & Ha2).
  destruct (serve_conservation r2 b2 0 Hd2 Ha2 ltac:(lra)) as (Hleft2 & Hused2 & _).
  assert (Hin2 : Forall (fun t => 0 <= allocated t <= demand t) (serve r2 b2 0).1.1).
  { apply serve_bounds. rewrite Forall_forall in Ha2, Hd2 |- *. intros t Ht.
    specialize (Ha2 t Ht). specialize (Hd2 t Ht). simpl in *. lra. }
  pose proof (serve_same_content r2 b2 0) as Hsame2.
  set (ts2 := (serve r2 b2 0).1.1) in *.
  assert (Hperm : Permutation r2 r1).
  { destruct Hr1 as [P1 _], Hr2 as [P2 _]. now rewrite <- P2. }
  destruct (Forall2_Permutation_align _ _ _ _ Hperm Hsame2) as (ts2' & Hp2' & Hsame1).
  assert (Hx : feasible r1 (map allocated ts2') b1).
  { split.
    - apply same_content_within; [exact Hsame1|]. now rewrite <- Hp2'.
    - rewrite <- (Qsum_Permutation _ _ (Permutation_map allocated Hp2')).
      fold (sum_allocated ts2). lra. }
  pose proof (greedy_bound_within r1 b1 0 _ Hs1 Hok1 Hd1 Hp1 ltac:(lra) Hx) as Hbound.
  destruct (same_content_value _ _ (map allocated ts2') Hsame1) as [_ Hv].
  rewrite <- Hv, allocation_value_pos_map in Hbound.
  rewrite <- (Qsum_Permutation _ _
                (Permutation_map (fun t => credit_pos t (allocated t)) Hp2')) in Hbound.
  rewrite <- allocation_value_pos_map in Hbound.
  rewrite (zero_demand_credit_all r1 Hs1 Hok1 Hd1 Hp1 Hsen1 b1 ltac:(lra)) in Hbound.
  rewrite (serve_value r2 b2 0 Ha2).
  rewrite (zero_demand_credit_all r2 Hs2 Hok2 Hd2 Hp2 Hsen2 b2 Hb2).
  assert (Hz : zero_demand_priority r2 == zero_demand_priority r1).
  { unfold zero_demand_priority. apply Qsum_Permutation, Permutation_map, Hperm. }
  fold ts2. lra.
Qed.



(** ** More or less bandwidth *)

Lemma sum_allocated_nonneg (ts : list Task) :
  Forall (fun t => 0 <= allocated t <= demand t) ts -> 0 <= sum_allocated ts.
Proof.
  induction 1 as [|t ts Ht _ IH]; [apply Qle_refl|].
  rewrite sum_allocated_cons. lra.
Qed.



(** ** The entry ranked first *)

(** X16: in every run with a positive total bandwidth, whatever the
    signs of the other inputs, the entry ranked first ends with its
    demand when that is within the total bandwidth, and with the total
    bandwidth otherwise.  In particular a negative demand is handed out
    as it is. *)
Theorem first_ranked_entry (inp : Input) (out : Outcome) (t : Task) :
  main inp out ->
  0 < in_totalBandwidth inp ->
  tasks (final out) !! 0%nat = Some t ->
  allocated t = (if Qle_bool (demand t) (in_totalBandwidth inp)
                 then demand t else in_totalBandwidth inp).
Proof.
  intros Hrun Hb Ht.
  apply main_inv in Hrun as [[_ ->]|[(_ & _ & ->)|(_ & _ & ranked & Hr & ->)]];
    [discriminate | discriminate |].
  destruct (finish_serve inp ranked) as (E & _ & _). rewrite E in Ht. clear E.
  destruct ranked as [|t0 rest]; [discriminate|].
  simpl in Ht. apply Qle_bool_false in Hb. rewrite Hb in Ht.
  destruct (Qle_bool (demand t0) (in_totalBandwidth inp)) eqn:Ed.
  - destruct (serve rest _ _) as [[rest' b'] v']. simpl in Ht.
    injection Ht as <-. simpl. now rewrite Ed.
  - simpl in Ht. injection Ht as <-. simpl. now rewrite Ed.
Qed.

Lemma first_ranked_entry_witness :
  allocated (mkTask "N" (-3) 5 SENTINEL (-3)) = -3.
Proof.
  apply (first_ranked_entry (mkInput 10 1 [mkTaskInput "N" (-3) 5] true)
           (main_stable (mkInput 10 1 [mkTaskInput "N" (-3) 5] true))).
  - apply main_stable_run. reflexivity.
  - simpl. lra.
  - reflexivity.
Defined.
